(** * A sequential model of the order book of [stock_engine.py]

    The Python program keeps [Order] objects on the interpreter heap and
    threads them into a singly linked list through their [next] attribute;
    [OrderBook.head] is the only entry point.  Object identity matters
    ([process_orders] hands a node of the list to [match_order] as the
    incoming order), so the model keeps an explicit object store: an address
    is the index of an object in allocation order.

    Every [next] attribute and [OrderBook.head] hold a [ctypes.py_object]
    cell.  A cell stored in a [next] attribute is never written through
    [.value] (only [head] is), so a cell is modelled by its content, an
    optional address.  A [py_object] wrapping a Python object is truthy and
    has a [value] attribute, hence [cur.next.value if cur.next and
    hasattr(cur.next, 'value') else cur.next] always reads the content.

    The model is sequential: one thread runs at a time, so the per-order
    [lock] and the [_cas_lock] are always free when taken and are left out;
    [print] appends to the [out] component of the state.

    Loops are [Fixpoint]s on a fuel argument; [None] means that the fuel ran
    out (or that an address outside the store was followed, which Python
    cannot do).  Totality on well-formed books is proved separately. *)

From stdpp Require Import base list strings.
From stdpp Require Import pretty.
From Stdlib Require Import ZArith Lia Ascii.

Local Open Scope Z_scope.

(** Object identities. *)
Abbreviation addr := nat (only parsing).

(** ** [class OrderType] *)
Module OrderType.
Definition BUY : string := "BUY".
Definition SELL : string := "SELL".
End OrderType.

(** ** [class Order] *)
Module Order.
Record t := mk {
  type : string;
  ticker : Z;
  quantity : Z;
  price : Z;
  next : option addr
}.

(** [Order.__init__]: the quantity is raised to at least 1 and the link
    starts empty. *)
Definition init (order_type : string) (ticker quantity price : Z) : t :=
  mk order_type ticker (Z.max 1 quantity) price None.

(** What [__str__] shows of an order: the four columns of the row. *)
Definition str (o : t) : string * Z * Z * Z :=
  (type o, ticker o, quantity o, price o).

Definition set_quantity (q : Z) (o : t) : t :=
  mk (type o) (ticker o) q (price o) (next o).

Definition set_next (n : option addr) (o : t) : t :=
  mk (type o) (ticker o) (quantity o) (price o) n.
End Order.

(** Lines written by [print]. *)
Inductive Event :=
| OrderAdded (row : string * Z * Z * Z)
| MatchFound (thread_id : Z) (row : string * Z * Z * Z) (traded_qty : Z) (at_price : Z).

(** ** [class OrderBook] *)
Module OrderBook.
(** The book's [head] cell together with the object store it points into
    and the lines printed so far. *)
Record t := mk {
  head : option addr;
  heap : list Order.t;
  out : list Event
}.

(** [OrderBook.__init__], on an empty store. *)
Definition init : t := mk None [] [].

(** Evaluating [Order(order_type, ticker, quantity, price)]: a new object
    at a fresh address. *)
Definition new_Order (st : t) (order_type : string) (ticker quantity price : Z)
  : addr * t :=
  (length (heap st),
   mk (head st) (heap st ++ [Order.init order_type ticker quantity price]) (out st)).

Definition print (e : Event) (st : t) : t :=
  mk (head st) (heap st) (out st ++ [e]).

Definition set_head (v : option addr) (st : t) : t :=
  mk v (heap st) (out st).

Definition set_heap (h : list Order.t) (st : t) : t :=
  mk (head st) h (out st).

(** [atomic_compare_and_swap(self.head, old, new)]; [is] compares
    identities, that is addresses. *)
Definition atomic_compare_and_swap (st : t) (old new : option addr) : bool * t :=
  if decide (head st = old) then (true, set_head new st) else (false, st).

(** [add_order].  Without another thread the first CAS succeeds; the retry
    of the [while True] loop is the [None] branch. *)
Definition add_order (st : t) (order : addr) : option t :=
  let old_head := head st in
  let st1 := set_heap (alter (Order.set_next old_head) order (heap st)) st in
  let '(ok, st2) := atomic_compare_and_swap st1 old_head (Some order) in
  if ok then
    o ← heap st2 !! order;
    Some (print (OrderAdded (Order.str o)) st2)
  else None.

(** The condition of the outer [if] in the search loop of [match_order]. *)
Definition eligible (incoming cur : Order.t) : bool :=
  (String.eqb (Order.type incoming) OrderType.BUY
     && String.eqb (Order.type cur) OrderType.SELL
     && (Order.ticker cur =? Order.ticker incoming)
     && (Order.price cur <=? Order.price incoming))
  || (String.eqb (Order.type incoming) OrderType.SELL
     && String.eqb (Order.type cur) OrderType.BUY
     && (Order.ticker cur =? Order.ticker incoming)
     && (Order.price cur >=? Order.price incoming)).

(** The condition of the inner [if]: [best_match is None or ...]. *)
Definition improves (h : list Order.t) (incoming cur : Order.t)
    (best_match : option addr) : option bool :=
  match best_match with
  | None => Some true
  | Some b =>
      bo ← h !! b;
      Some ((String.eqb (Order.type incoming) OrderType.BUY
               && (Order.price cur <? Order.price bo))
            || (String.eqb (Order.type incoming) OrderType.SELL
               && (Order.price cur >? Order.price bo)))
  end.

(** The [while cur is not None] loop of [match_order], lines 71-93;
    the result is [(best_match, best_match_prev)]. *)
Fixpoint find_best (fuel : nat) (h : list Order.t) (incoming : Order.t)
    (prev best_match best_match_prev cur : option addr)
  : option (option addr * option addr) :=
  match fuel with
  | O => None
  | S fuel' =>
      match cur with
      | None => Some (best_match, best_match_prev)
      | Some c =>
          o ← h !! c;
          if Order.quantity o <=? 0 then
            find_best fuel' h incoming prev best_match best_match_prev (Order.next o)
          else if eligible incoming o then
            better ← improves h incoming o best_match;
            if better : bool then
              find_best fuel' h incoming (Some c) (Some c) prev (Order.next o)
            else
              find_best fuel' h incoming (Some c) best_match best_match_prev (Order.next o)
          else
            find_best fuel' h incoming (Some c) best_match best_match_prev (Order.next o)
      end
  end.

Definition sub_quantity (a : addr) (d : Z) (h : list Order.t) : list Order.t :=
  alter (fun o => Order.set_quantity (Order.quantity o - d) o) a h.

(** [match_order(incoming, thread_id)]. *)
Definition match_order (fuel : nat) (st : t) (incoming : addr) (thread_id : Z)
  : option (bool * t) :=
  inc ← heap st !! incoming;
  '(best_match, best_match_prev) ←
    find_best fuel (heap st) inc None None None (head st);
  match best_match with
  | None => Some (false, st)
  | Some b =>
      bo ← heap st !! b;
      let traded_qty := Z.min (Order.quantity inc) (Order.quantity bo) in
      if traded_qty =? 0 then Some (false, st)
      else
        let st1 := print (MatchFound thread_id (Order.str bo) traded_qty (Order.price bo)) st in
        let st2 := set_heap (sub_quantity incoming traded_qty (heap st1)) st1 in
        let st3 := set_heap (sub_quantity b traded_qty (heap st2)) st2 in
        bo' ← heap st3 !! b;
        if Order.quantity bo' =? 0 then
          match best_match_prev with
          | None =>
              Some (true, (atomic_compare_and_swap st3 (Some b) (Order.next bo')).2)
          | Some p =>
              Some (true, set_heap (alter (Order.set_next (Order.next bo')) p (heap st3)) st3)
          end
        else Some (true, st3)
  end.

(** The loop of [process_orders], entered with scan pointer [cur]. *)
Fixpoint process_orders_from (fuel : nat) (st : t) (thread_id : Z)
    (cur : option addr) : option t :=
  match fuel with
  | O => None
  | S fuel' =>
      match cur with
      | None => Some st
      | Some c =>
          o ← heap st !! c;
          if 0 <? Order.quantity o then
            '(matched, st') ← match_order fuel' st c thread_id;
            if matched : bool then
              process_orders_from fuel' st' thread_id (head st')
            else
              o' ← heap st' !! c;
              process_orders_from fuel' st' thread_id (Order.next o')
          else
            process_orders_from fuel' st thread_id (Order.next o)
      end
  end.

(** [process_orders(thread_id)]. *)
Definition process_orders (fuel : nat) (st : t) (thread_id : Z) : option t :=
  process_orders_from fuel st thread_id (head st).

(** The loop of [get_order_list]: every node met is appended. *)
Fixpoint get_order_list_from (fuel : nat) (h : list Order.t) (cur : option addr)
  : option (list addr) :=
  match fuel with
  | O => None
  | S fuel' =>
      match cur with
      | None => Some []
      | Some c =>
          o ← h !! c;
          rest ← get_order_list_from fuel' h (Order.next o);
          Some (c :: rest)
      end
  end.

(** [get_order_list()]: the returned Python list holds the objects
    themselves, here their addresses. *)
Definition get_order_list (fuel : nat) (st : t) : option (list addr) :=
  get_order_list_from fuel (heap st) (head st).

(** The rows collected by the loop of [display]: only orders with positive
    quantity. *)
Fixpoint display_from (fuel : nat) (h : list Order.t) (cur : option addr)
  : option (list (string * Z * Z * Z)) :=
  match fuel with
  | O => None
  | S fuel' =>
      match cur with
      | None => Some []
      | Some c =>
          o ← h !! c;
          rest ← display_from fuel' h (Order.next o);
          Some (if 0 <? Order.quantity o then Order.str o :: rest else rest)
      end
  end.

Definition display_rows (fuel : nat) (st : t) : option (list (string * Z * Z * Z)) :=
  display_from fuel (heap st) (head st).

(** [reset()]. *)
Definition reset (st : t) : t := set_head None st.
End OrderBook.

(** ** [TradingEngine]: one iteration of a worker without the other threads *)
Module TradingEngine.
(** [Order(...)] followed by [add_order], as both workers do. *)
Definition submit (st : OrderBook.t) (order_type : string) (ticker quantity price : Z)
  : option (addr * OrderBook.t) :=
  let '(a, st1) := OrderBook.new_Order st order_type ticker quantity price in
  st2 ← OrderBook.add_order st1 a;
  Some (a, st2).

(** The body of the worker loops: create, add, then sweep the book. *)
Definition place (fuel : nat) (st : OrderBook.t) (thread_id : Z)
    (order_type : string) (ticker quantity price : Z) : option OrderBook.t :=
  '(_, st1) ← submit st order_type ticker quantity price;
  OrderBook.process_orders fuel st1 thread_id.
End TradingEngine.

(** * Books as finite chains *)

(** [chain h c l]: following [next] from [c] in the store [h] visits exactly
    the addresses [l], in this order, and then reaches [None]. *)
Fixpoint chain (h : list Order.t) (c : option addr) (l : list addr) : Prop :=
  match l with
  | [] => c = None
  | a :: l' => c = Some a ∧ ∃ o, h !! a = Some o ∧ chain h (Order.next o) l'
  end.

(** A node that the search loop does not skip. *)
Definition is_open (h : list Order.t) (a : addr) : bool :=
  match h !! a with
  | Some o => negb (Order.quantity o <=? 0)
  | None => false
  end.

(** The last open node of [l], starting from [prev]: what the variable
    [prev] of [match_order] holds after the loop has walked through [l]. *)
Definition last_open (h : list Order.t) (prev : option addr) (l : list addr)
  : option addr :=
  foldl (fun acc a => if is_open h a then Some a else acc) prev l.

(** The eligibility rule in the words of the specification. *)
Definition crossing (incoming c : Order.t) : Prop :=
  Order.ticker c = Order.ticker incoming ∧
  ((Order.type incoming = OrderType.BUY ∧ Order.type c = OrderType.SELL
      ∧ Order.price c ≤ Order.price incoming)
   ∨ (Order.type incoming = OrderType.SELL ∧ Order.type c = OrderType.BUY
      ∧ Order.price c >= Order.price incoming)).

(** [x] has a strictly better price than [y] for [incoming]. *)
Definition beats (incoming x y : Order.t) : Prop :=
  (Order.type incoming = OrderType.BUY ∧ Order.price x < Order.price y)
  ∨ (Order.type incoming = OrderType.SELL ∧ Order.price x > Order.price y).

(** [x] has a price at least as good as [y] for [incoming]. *)
Definition as_good (incoming x y : Order.t) : Prop :=
  (Order.type incoming = OrderType.BUY ∧ Order.price x ≤ Order.price y)
  ∨ (Order.type incoming = OrderType.SELL ∧ Order.price x >= Order.price y).

(** What the search loop has established once the nodes [l] are behind it. *)
Definition scan_inv (h : list Order.t) (incoming : Order.t) (l : list addr)
    (prev best_match best_match_prev : option addr) : Prop :=
  prev = last_open h None l ∧
  match best_match with
  | None =>
      best_match_prev = None ∧
      ∀ a o, a ∈ l → h !! a = Some o → 0 < Order.quantity o → ¬ crossing incoming o
  | Some b =>
      ∃ pre post bo,
        l = pre ++ b :: post ∧ h !! b = Some bo ∧ 0 < Order.quantity bo ∧
        crossing incoming bo ∧ best_match_prev = last_open h None pre ∧
        (∀ a o, a ∈ pre → h !! a = Some o → 0 < Order.quantity o →
                crossing incoming o → beats incoming bo o) ∧
        (∀ a o, a ∈ post → h !! a = Some o → 0 < Order.quantity o →
                crossing incoming o → as_good incoming bo o)
  end.

(** Sum of the positive remaining quantities of all objects. *)
Definition open_interest (h : list Order.t) : nat :=
  sum_list_with (fun o => Z.to_nat (Order.quantity o)) h.

(** No positive-quantity order of the book can trade with another one. *)
Definition quiescent (h : list Order.t) (l : list addr) : Prop :=
  ∀ a b oa ob, a ∈ l → b ∈ l → h !! a = Some oa → h !! b = Some ob →
    0 < Order.quantity oa → 0 < Order.quantity ob → ¬ crossing oa ob.

(** The rows of the orders of positive quantity among [l]. *)
Definition open_rows (h : list Order.t) (l : list addr) : list (string * Z * Z * Z) :=
  omap (fun a => o ← h !! a; if 0 <? Order.quantity o then Some (Order.str o) else None) l.

(** [o'] is [o] with its quantity lowered by [d]; nothing is said of the link. *)
Definition traded_from (d : Z) (o o' : Order.t) : Prop :=
  Order.type o' = Order.type o ∧ Order.ticker o' = Order.ticker o ∧
  Order.price o' = Order.price o ∧ Order.quantity o' = Order.quantity o - d.

(** The state [st'] and chain [l'] after [match_order] traded the incoming
    order [i] against the best match [b], found with predecessor [bp], in a
    book with chain [l]. *)
Definition trade_post (st : OrderBook.t) (i : addr) (thread_id : Z) (l : list addr)
    (inc : Order.t) (b : addr) (bo : Order.t) (bp : option addr)
    (st' : OrderBook.t) (l' : list addr) : Prop :=
  let traded := Z.min (Order.quantity inc) (Order.quantity bo) in
  OrderBook.out st' =
    OrderBook.out st ++ [MatchFound thread_id (Order.str bo) traded (Order.price bo)] ∧
  length (OrderBook.heap st') = length (OrderBook.heap st) ∧
  (∀ a o, OrderBook.heap st !! a = Some o →
     ∃ o', OrderBook.heap st' !! a = Some o' ∧
           traded_from (if decide (a = i ∨ a = b) then traded else 0) o o') ∧
  chain (OrderBook.heap st') (OrderBook.head st') l' ∧
  l' `sublist_of` l ∧
  (i ∈ l → i ∈ l') ∧
  (∀ a, a ∈ l → a ∈ l' ∨ a = b ∨ is_open (OrderBook.heap st) a = false) ∧
  (Order.quantity bo = traded → is_Some bp ∨ OrderBook.head st = Some b → b ∉ l').

(** * Concrete books *)
Module Scenario.
(** Create the orders [rows] one after the other and add each to the book,
    without sweeping. *)
Definition submit_all (st : OrderBook.t) (rows : list (string * Z * Z * Z))
  : option OrderBook.t :=
  foldl (fun acc '(order_type, ticker, quantity, price) =>
           st ← acc;
           '(_, st') ← TradingEngine.submit st order_type ticker quantity price;
           Some st')
        (Some st) rows.

(** One worker placing the orders [rows] one after the other, sweeping
    after each. *)
Definition place_all (fuel : nat) (st : OrderBook.t) (thread_id : Z)
    (rows : list (string * Z * Z * Z)) : option OrderBook.t :=
  foldl (fun acc '(order_type, ticker, quantity, price) =>
           st ← acc;
           TradingEngine.place fuel st thread_id order_type ticker quantity price)
        (Some st) rows.

(** Two SELLs at price 8 (object 0, then object 1) and a BUY at 10
    (object 2), all linked, nothing matched yet. *)
Definition tie_book : OrderBook.t :=
  Eval vm_compute in
    default OrderBook.init
      (submit_all OrderBook.init [("SELL", 1, 5, 8); ("SELL", 1, 5, 8); ("BUY", 1, 5, 10)]).

(** [tie_book] after [match_order] for its BUY, called by thread 0. *)
Definition tie_book_matched : OrderBook.t :=
  Eval vm_compute in
    default OrderBook.init (snd <$> OrderBook.match_order 4 tie_book 2 0).

(** SELL(1,10,100), SELL(1,20,100), BUY(1,25,100) inserted in this order. *)
Definition fill_chain_book : OrderBook.t :=
  Eval vm_compute in
    default OrderBook.init
      (submit_all OrderBook.init
         [("SELL", 1, 10, 100); ("SELL", 1, 20, 100); ("BUY", 1, 25, 100)]).

(** The end-to-end scenario: SELL(1,50,100) then BUY(1,30,105), each placed
    by a worker; object 0 is the SELL and object 1 the BUY. *)
Definition end_to_end_book : OrderBook.t :=
  Eval vm_compute in
    default OrderBook.init
      (place_all 8 OrderBook.init 0 [("SELL", 1, 50, 100); ("BUY", 1, 30, 105)]).

(** A worker placed SELL(1,5,100), SELL(1,5,90) and BUY(1,5,100): the BUY
    (object 2) took the cheaper SELL and stays linked with quantity 0 in
    front of the other SELL (object 0).  Then BUY(1,5,100) (object 3) is
    created and added; the chain is 3, 2, 0. *)
Definition stale_middle_book : OrderBook.t :=
  Eval vm_compute in
    default OrderBook.init
      (st ← place_all 8 OrderBook.init 0
              [("SELL", 1, 5, 100); ("SELL", 1, 5, 90); ("BUY", 1, 5, 100)];
       submit_all st [("BUY", 1, 5, 100)]).

(** BUY(1,10,100) (object 0), SELL(1,10,100) (object 1), SELL(1,5,90)
    (object 2) and BUY(1,5,100) (object 3) were added, then
    [match_order] was called for object 3: it took object 2 and stays at
    the head with quantity 0.  The chain is 3, 1, 0. *)
Definition stale_head_book : OrderBook.t :=
  Eval vm_compute in
    default OrderBook.init
      (st ← submit_all OrderBook.init
              [("BUY", 1, 10, 100); ("SELL", 1, 10, 100); ("SELL", 1, 5, 90);
               ("BUY", 1, 5, 100)];
       snd <$> OrderBook.match_order 5 st 3 0).

(** [stale_head_book] after [match_order] for object 0, thread 0. *)
Definition stale_head_book_matched : OrderBook.t :=
  Eval vm_compute in
    default OrderBook.init (snd <$> OrderBook.match_order 4 stale_head_book 0 0).
End Scenario.

(** C5 in the words of the specification: the snapshot holds only orders of
    positive remaining quantity. *)
Definition snapshot_only_open (fuel : nat) (st : OrderBook.t) : Prop :=
  ∀ l, OrderBook.get_order_list fuel st = Some l →
       ∀ a o, a ∈ l → OrderBook.heap st !! a = Some o → 0 < Order.quantity o.

(** C10 in its own words: a node that leaves the chain in a run of
    [match_order] is the selected best match. *)
Definition unlinks_only_candidate (fuel : nat) (st : OrderBook.t) (i : addr)
    (thread_id : Z) : Prop :=
  ∀ inc best bp r st' l l',
    OrderBook.heap st !! i = Some inc →
    OrderBook.find_best fuel (OrderBook.heap st) inc None None None (OrderBook.head st)
      = Some (best, bp) →
    OrderBook.match_order fuel st i thread_id = Some (r, st') →
    OrderBook.get_order_list fuel st = Some l →
    OrderBook.get_order_list fuel st' = Some l' →
    ∀ a, a ∈ l → a ∉ l' → best = Some a.

(** * Further notions for the sweep and the workers *)

(** Every open order of [l0] has no open order of [l] to trade with: what
    [process_orders] knows of the nodes [l0] its scan pointer has passed
    since the last restart. *)
Definition settled (h : list Order.t) (l l0 : list addr) : Prop :=
  ∀ a b oa ob, a ∈ l0 → b ∈ l → h !! a = Some oa → h !! b = Some ob →
    0 < Order.quantity oa → 0 < Order.quantity ob → ¬ crossing oa ob.

(** The contribution of one order to the volume resting on [side]. *)
Definition on_side (side : string) (o : Order.t) : Z :=
  if String.eqb (Order.type o) side then Order.quantity o else 0.

(** The remaining quantity of all orders of type [side] in the store. *)
Definition side_quantity (side : string) (h : list Order.t) : Z :=
  foldr (fun o acc => on_side side o + acc) 0 h.

(** The quantities of the trades among the printed lines [evs]. *)
Definition traded_volume (evs : list Event) : Z :=
  foldr (fun e acc =>
           match e with
           | MatchFound _ _ traded_qty _ => traded_qty + acc
           | OrderAdded _ => acc
           end) 0 evs.

(** A trade line of thread [thread_id] with a positive quantity. *)
Definition trade_line (thread_id : Z) (e : Event) : Prop :=
  match e with
  | MatchFound t _ traded_qty _ => t = thread_id ∧ 0 < traded_qty
  | OrderAdded _ => False
  end.

(** [o'] is the order [o] later in a sweep: same type, ticker and price, no
    larger quantity, never negative if it was not, untouched if it was
    filled. *)
Definition worn (o o' : Order.t) : Prop :=
  Order.type o' = Order.type o ∧ Order.ticker o' = Order.ticker o ∧
  Order.price o' = Order.price o ∧
  Order.quantity o' <= Order.quantity o ∧
  (0 <= Order.quantity o → 0 <= Order.quantity o') ∧
  (Order.quantity o <= 0 → Order.quantity o' = Order.quantity o).

(** ** The text of a row: [Order.__str__] and the headers of [Printer] *)

(** A Python [str] is a sequence of characters; here it is the [string] of
    the bytes of its UTF-8 encoding, which is what a string literal of this
    file holds.  [len] and the width of a format specification count
    characters, not bytes. *)
Module Format.
(** A byte that begins a character: every byte but the continuation bytes
    [10xxxxxx] of UTF-8. *)
Definition starts_char (c : ascii) : bool :=
  match c with
  | Ascii _ _ _ _ _ _ b6 b7 => negb (b7 && negb b6)
  end.

(** [len(s)]: the number of characters of [s]. *)
Fixpoint char_length (s : string) : nat :=
  match s with
  | EmptyString => O
  | String c s' => ((if starts_char c then 1 else 0) + char_length s')%nat
  end.

(** [c * n]. *)
Fixpoint times (c : ascii) (n : nat) : string :=
  match n with
  | O => ""
  | S n' => String c (times c n')
  end.

(** The format specification [<width]: the text itself, followed by spaces
    up to [width] characters; a longer text is left as it is. *)
Definition ljust (width : nat) (s : string) : string :=
  s +:+ times " " (width - char_length s).

(** [Order.__str__] on the four columns of an order; [pretty] writes an
    integer in decimal with a leading [-] when negative, as [str] does. *)
Definition str (row : string * Z * Z * Z) : string :=
  let '(type, ticker, quantity, price) := row in
  ljust 6 type +:+ " | " +:+ ljust 6 (pretty ticker) +:+ " | "
    +:+ ljust 8 (pretty quantity) +:+ " | " +:+ ljust 6 (pretty price).

(** [header] and [line] of [Printer.print_table_header]. *)
Definition table_header : string :=
  ljust 6 "Type" +:+ " | " +:+ ljust 6 "Ticker" +:+ " | "
    +:+ ljust 8 "Qty" +:+ " | " +:+ ljust 6 "Price".

Definition table_line : string := times "-" (char_length table_header).
End Format.

(** ** [TradingEngine.process_dataset_orders], one worker on its own *)
Module DatasetWorker.
(** An entry of [order_queue]: the dictionary built by
    [load_orders_from_csv]. *)
Record order_data := mk {
  order_type : string;
  ticker : Z;
  quantity : Z;
  price : Z
}.

(** The line printed when the worker leaves its loop. *)
Inductive line := ThreadDone (thread_id : Z).

(** [while not self.order_queue.empty()]: take the oldest entry, create the
    order, add it, sweep ([time.sleep] changes nothing).  The result is the
    book, the queue as the worker leaves it and the worker's last line. *)
Fixpoint process_dataset_orders (fuel : nat) (st : OrderBook.t)
    (order_queue : list order_data) (thread_id : Z)
  : option (OrderBook.t * list order_data * list line) :=
  match order_queue with
  | [] => Some (st, [], [ThreadDone thread_id])
  | d :: rest =>
      st' ← TradingEngine.place fuel st thread_id
              (order_type d) (ticker d) (quantity d) (price d);
      process_dataset_orders fuel st' rest thread_id
  end.
End DatasetWorker.

(** ** More concrete books *)
Module Swept.
(** [Scenario.fill_chain_book] after one sweep by thread 0. *)
Definition fill_chain_book : OrderBook.t :=
  Eval vm_compute in
    default OrderBook.init (OrderBook.process_orders 7 Scenario.fill_chain_book 0).

(** [Scenario.end_to_end_book] with its head added once more. *)
Definition end_to_end_book_readded : OrderBook.t :=
  Eval vm_compute in
    default OrderBook.init (OrderBook.add_order Scenario.end_to_end_book 1).

(** What one worker leaves of SELL(1,50,100), BUY(1,30,105), BUY(1,0,100). *)
Definition dataset_book : OrderBook.t :=
  Eval vm_compute in
    default OrderBook.init
      (fst <$> (fst <$> DatasetWorker.process_dataset_orders 9 OrderBook.init
         [DatasetWorker.mk "SELL" 1 50 100; DatasetWorker.mk "BUY" 1 30 105;
          DatasetWorker.mk "BUY" 1 0 100] 0)).

(** [Scenario.stale_middle_book] after [match_order] for its new BUY,
    object 3, called by thread 0. *)
Definition stale_middle_book_matched : OrderBook.t :=
  Eval vm_compute in
    default OrderBook.init
      (snd <$> OrderBook.match_order 4 Scenario.stale_middle_book 3 0).
End Swept.

Ltac chain_by_computation :=
  simpl; repeat (split; [reflexivity|]; eexists; split; [reflexivity|]); reflexivity.

(** * Facts about chains *)

Lemma chain_det h c l1 l2 : chain h c l1 → chain h c l2 → l1 = l2.
Proof.
  revert c l2. induction l1 as [|a l1 IH]; intros c [|b l2]; simpl.
  - done.
  - intros -> [? _]; done.
  - intros [-> _] ?; done.
  - intros [-> (o & Ho & Hc)] [[= <-] (o' & Ho' & Hc')].
    rewrite Ho in Ho'. injection Ho' as <-. f_equal. eauto.
Qed.

Lemma chain_suffix h c l1 a l2 :
  chain h c (l1 ++ a :: l2) → chain h (Some a) (a :: l2).
Proof.
  revert c. induction l1 as [|x l1 IH]; intros c; simpl.
  - intros [_ H]. split; [done | exact H].
  - intros [_ (o & _ & Hc)]. exact (IH _ Hc).
Qed.

Lemma chain_lookup h c l a : chain h c l → a ∈ l → is_Some (h !! a).
Proof.
  intros Hc Ha. apply list_elem_of_split in Ha as (l1 & l2 & ->).
  apply chain_suffix in Hc as [_ (o & Ho & _)]. eauto.
Qed.

Lemma chain_NoDup h c l : chain h c l → NoDup l.
Proof.
  revert c. induction l as [|a l IH]; intros c Hc; [constructor|].
  pose proof Hc as [-> (o & Ho & Hl)].
  constructor; [|eauto].
  intros Ha. apply list_elem_of_split in Ha as (l1 & l2 & ->).
  pose proof (chain_suffix _ _ _ _ _ Hl) as Hs.
  pose proof (chain_det _ _ _ _ Hc Hs) as Heq.
  apply (f_equal length) in Heq. simpl in Heq. rewrite length_app in Heq.
  simpl in Heq. lia.
Qed.

(** Only the [next] fields of the visited nodes matter. *)
Lemma chain_ext h h' c l :
  (∀ a, a ∈ l → Order.next <$> h' !! a = Order.next <$> h !! a) →
  chain h c l → chain h' c l.
Proof.
  revert c. induction l as [|a l IH]; intros c Hext; simpl; [done|].
  intros [-> (o & Ho & Hc)]. split; [done|].
  pose proof (Hext a ltac:(left)) as Ha. rewrite Ho in Ha. simpl in Ha.
  destruct (h' !! a) as [o'|] eqn:Ho'; simpl in Ha; [|done].
  injection Ha as Ha. exists o'. split; [done|]. rewrite Ha.
  apply IH; [|done]. intros x Hx. apply Hext. by right.
Qed.

Lemma chain_alter_keep_next f i h c l :
  (∀ o, Order.next (f o) = Order.next o) →
  chain h c l → chain (alter f i h) c l.
Proof.
  intros Hf. apply chain_ext. intros a _.
  destruct (decide (i = a)) as [->|Hne].
  - rewrite list_lookup_alter_eq. destruct (h !! a) as [o|]; simpl; [|done].
    by rewrite Hf.

  - by rewrite list_lookup_alter_ne.
Qed.

Lemma chain_alter_outside f i h c l :
  i ∉ l → chain h c l → chain (alter f i h) c l.
Proof.
  intros Hi. apply chain_ext. intros a Ha.
  rewrite list_lookup_alter_ne; [done|]. intros ->. done.
Qed.

(** Redirecting the link of [p] past the nodes [mid ++ [b]] removes exactly
    these nodes from the chain. *)
Lemma chain_unlink h c l1 p mid b l2 bo :
  chain h c (l1 ++ p :: mid ++ b :: l2) → h !! b = Some bo →
  chain (alter (Order.set_next (Order.next bo)) p h) c (l1 ++ p :: l2).
Proof.
  intros Hc Hb. pose proof (chain_NoDup _ _ _ Hc) as Hnd.
  apply NoDup_app in Hnd as (_ & Hl1 & Hnd).
  apply NoDup_cons in Hnd as (Hp & _).
  assert (p ∉ l1) as Hp1. { intros ?. eapply Hl1; [done|left]. }
  assert (p ∉ l2) as Hp2. { intros ?. apply Hp. apply elem_of_app. right. by right. }
  clear Hl1 Hp. revert c Hc Hp1.
  induction l1 as [|x l1 IH]; intros c Hc Hp1; simpl in *.
  - destruct Hc as [-> (po & Hpo & Hc)]. split; [done|].
    exists (Order.set_next (Order.next bo) po).
    rewrite list_lookup_alter_eq, Hpo. split; [done|]. simpl.
    apply chain_alter_outside; [done|].
    apply chain_suffix in Hc as [_ (bo' & Hbo' & Hc)].
    rewrite Hb in Hbo'. by injection Hbo' as <-.
  - destruct Hc as [-> (o & Ho & Hc)]. split; [done|].
    apply not_elem_of_cons in Hp1 as [Hne Hp1].
    exists o. rewrite list_lookup_alter_ne; [|done]. split; [done|]. eauto.
Qed.

(** * The search loop *)

Lemma BUY_neq_SELL : OrderType.BUY ≠ OrderType.SELL.
Proof. discriminate. Qed.

Lemma eligible_crossing incoming c :
  OrderBook.eligible incoming c = true ↔ crossing incoming c.
Proof.
  unfold OrderBook.eligible, crossing.
  rewrite orb_true_iff, !andb_true_iff, !String.eqb_eq, !Z.eqb_eq,
    Z.leb_le, Z.geb_le.
  intuition lia.
Qed.

Lemma not_eligible_crossing incoming c :
  OrderBook.eligible incoming c = false ↔ ¬ crossing incoming c.
Proof. rewrite <- eligible_crossing. by destruct (OrderBook.eligible incoming c). Qed.

Lemma crossing_sides incoming c :
  crossing incoming c →
  Order.type incoming = OrderType.BUY ∨ Order.type incoming = OrderType.SELL.
Proof. intros [_ [(? & _)|(? & _)]]; auto. Qed.

Lemma crossing_neq incoming c : crossing incoming c → incoming ≠ c.
Proof.
  intros [_ [(H1 & H2 & _)|(H1 & H2 & _)]] ->; rewrite H1 in H2; discriminate.
Qed.

(** A resting order crosses an incoming one exactly when the incoming one,
    were it resting, would cross it. *)
Lemma crossing_sym x y : crossing x y ↔ crossing y x.
Proof. unfold crossing. intuition lia. Qed.

Lemma improves_Some h incoming cur b bo :
  h !! b = Some bo →
  ∃ r, OrderBook.improves h incoming cur (Some b) = Some r ∧
       (r = true ↔ beats incoming cur bo).
Proof.
  intros Hb. unfold OrderBook.improves, beats. rewrite Hb. simpl.
  eexists; split; [done|].
  rewrite orb_true_iff, !andb_true_iff, !String.eqb_eq, Z.ltb_lt, Z.gtb_lt.
  intuition lia.
Qed.

Lemma not_beats_as_good incoming x y z :
  crossing incoming z → ¬ beats incoming x y → as_good incoming y x.
Proof.
  intros Hz Hn. unfold beats, as_good in *.
  destruct (crossing_sides _ _ Hz) as [Ht|Ht]; [left|right]; split; try done;
    destruct (Z.lt_ge_cases (Order.price x) (Order.price y));
    destruct (Z.lt_ge_cases (Order.price y) (Order.price x)); try lia;
    exfalso; apply Hn; [left|right]; split; try done; lia.
Qed.

Lemma beats_trans incoming x y z :
  beats incoming x y → beats incoming y z → beats incoming x z.
Proof.
  pose proof BUY_neq_SELL.
  unfold beats. intros [[? ?]|[? ?]] [[? ?]|[? ?]]; try congruence;
    [left|right]; split; try done; lia.
Qed.

Lemma beats_as_good_trans incoming x y z :
  beats incoming x y → as_good incoming y z → beats incoming x z.
Proof.
  pose proof BUY_neq_SELL.
  unfold beats, as_good. intros [[? ?]|[? ?]] [[? ?]|[? ?]]; try congruence;
    [left|right]; split; try done; lia.
Qed.

Lemma is_open_lookup h a o :
  h !! a = Some o → is_open h a = negb (Order.quantity o <=? 0).
Proof. unfold is_open. by intros ->. Qed.

Lemma is_open_true h a :
  is_open h a = true ↔ ∃ o, h !! a = Some o ∧ 0 < Order.quantity o.
Proof.
  unfold is_open. destruct (h !! a) as [o|]; split.
  - intros H. exists o. split; [done|].
    apply negb_true_iff, Z.leb_gt in H. done.
  - intros (o' & [= <-] & H). apply negb_true_iff, Z.leb_gt. done.
  - done.
  - intros (? & ? & _). done.
Qed.

Lemma last_open_snoc h prev l a :
  last_open h prev (l ++ [a]) = if is_open h a then Some a else last_open h prev l.
Proof. unfold last_open. by rewrite foldl_snoc. Qed.

(** The loop leaves the best match alone: the node is skipped, does not
    cross, or does not improve on the best match. *)
Lemma scan_inv_keep h incoming l prev best bp a o :
  h !! a = Some o →
  (0 < Order.quantity o → crossing incoming o →
   ∃ b bo, best = Some b ∧ h !! b = Some bo ∧ ¬ beats incoming o bo) →
  scan_inv h incoming l prev best bp →
  scan_inv h incoming (l ++ [a]) (if is_open h a then Some a else prev) best bp.
Proof.
  intros Ha Hkeep [-> Hbest]. split; [by rewrite last_open_snoc|].
  destruct best as [b|].
  - destruct Hbest as (pre & post & bo & -> & Hb & Hq & Hx & -> & Hpre & Hpost).
    exists pre, (post ++ [a]), bo. rewrite <- app_assoc. simpl.
    split_and!; try done.
    intros x ox [Hin|Hin]%elem_of_app Hox Hqx Hcx; [eauto|].
    apply list_elem_of_singleton in Hin as ->.
    rewrite Ha in Hox. injection Hox as <-.
    destruct (Hkeep Hqx Hcx) as (b' & bo' & [= <-] & Hb' & Hnb).
    rewrite Hb in Hb'. injection Hb' as <-.
    by eapply not_beats_as_good.
  - destruct Hbest as [-> Hnone]. split; [done|].
    intros x ox [Hin|Hin]%elem_of_app Hox Hqx Hcx; [by eapply Hnone|].
    apply list_elem_of_singleton in Hin as ->.
    rewrite Ha in Hox. injection Hox as <-.
    destruct (Hkeep Hqx Hcx) as (? & ? & ? & _). done.
Qed.

(** The loop replaces the best match by the current node. *)
Lemma scan_inv_take h incoming l prev best bp a o :
  h !! a = Some o → 0 < Order.quantity o → crossing incoming o →
  (∀ b, best = Some b → ∃ bo, h !! b = Some bo ∧ beats incoming o bo) →
  scan_inv h incoming l prev best bp →
  scan_inv h incoming (l ++ [a]) (Some a) (Some a) prev.
Proof.
  intros Ha Hq Hx Htake [-> Hbest]. split.
  - rewrite last_open_snoc.
    replace (is_open h a) with true; [done|].
    symmetry. apply is_open_true. eauto.
  - exists l, [], o. split_and!; try done.
    + intros x ox Hin Hox Hqx Hcx. destruct best as [b|].
      * destruct Hbest as (pre & post & bo & -> & Hb & _ & _ & _ & Hpre & Hpost).
        destruct (Htake b eq_refl) as (bo' & Hb' & Hbeats).
        rewrite Hb in Hb'. injection Hb' as <-.
        apply elem_of_app in Hin as [Hin|Hin].
        { eapply beats_trans; [done|]. eauto. }
        apply elem_of_cons in Hin as [->|Hin].
        { rewrite Hb in Hox. by injection Hox as <-. }
        eapply beats_as_good_trans; [done|]. eauto.
      * destruct Hbest as [_ Hnone]. exfalso. by eapply Hnone.
    + intros x ox Hin. by apply elem_of_nil in Hin.
Qed.

(** On a finite chain the loop ends and its invariant holds for the whole
    chain. *)
Lemma find_best_inv h incoming l2 :
  ∀ fuel c l1 prev best bp,
    chain h c l2 → (length l2 < fuel)%nat →
    scan_inv h incoming l1 prev best bp →
    ∃ prev' best' bp',
      OrderBook.find_best fuel h incoming prev best bp c = Some (best', bp') ∧
      scan_inv h incoming (l1 ++ l2) prev' best' bp'.
Proof.
  induction l2 as [|a l2 IH]; intros fuel c l1 prev best bp Hc Hfuel Hinv.
  - simpl in Hc. subst c. destruct fuel as [|fuel]; [simpl in Hfuel; lia|].
    simpl. exists prev, best, bp. by rewrite app_nil_r.
  - destruct Hc as [-> (o & Ho & Hc)].
    destruct fuel as [|fuel]; [simpl in Hfuel; lia|].
    simpl in Hfuel. assert (length l2 < fuel)%nat as Hfuel' by lia.
    simpl. rewrite Ho. simpl.
    replace (l1 ++ a :: l2) with ((l1 ++ [a]) ++ l2) by by rewrite <- app_assoc.
    pose proof (is_open_lookup _ _ _ Ho) as Hopen.
    destruct (Order.quantity o <=? 0) eqn:Hq.
    + apply Z.leb_le in Hq. apply IH; [done..|].
      replace prev with (if is_open h a then Some a else prev) by by rewrite Hopen.
      eapply scan_inv_keep; [done| |done]. lia.
    + apply Z.leb_gt in Hq. simpl in Hopen.
      destruct (OrderBook.eligible incoming o) eqn:Hel.
      * apply eligible_crossing in Hel.
        destruct best as [b|].
        -- pose proof Hinv as [_ (pre & post & bo & _ & Hb & _)].
           destruct (improves_Some h incoming o b bo Hb) as (r & -> & Hr).
           simpl. destruct r.
           ++ apply IH; [done..|]. eapply scan_inv_take; [done..| |done].
              intros ? [= <-]. exists bo. split; [done|]. by apply Hr.
           ++ apply IH; [done..|].
              replace (Some a) with (if is_open h a then Some a else prev) at 1
                by by rewrite Hopen.
              eapply scan_inv_keep; [done| |done].
              intros _ _. exists b, bo. split_and!; try done.
              intros Hb'. apply Hr in Hb'. done.
        -- simpl. apply IH; [done..|]. eapply scan_inv_take; [done..| |done]. done.
      * apply not_eligible_crossing in Hel. apply IH; [done..|].
        replace (Some a) with (if is_open h a then Some a else prev) at 1
          by by rewrite Hopen.
        eapply scan_inv_keep; [done| |done]. done.
Qed.

Lemma scan_inv_init h incoming : scan_inv h incoming [] None None None.
Proof.
  split; [done|]. split; [done|]. intros a o Ha. by apply elem_of_nil in Ha.
Qed.

(** The search of [match_order] on a book whose chain is [l]. *)
Lemma find_best_chain h incoming c l fuel :
  chain h c l → (length l < fuel)%nat →
  ∃ prev best bp,
    OrderBook.find_best fuel h incoming None None None c = Some (best, bp) ∧
    scan_inv h incoming l prev best bp.
Proof.
  intros Hc Hfuel.
  destruct (find_best_inv h incoming l fuel c [] None None None Hc Hfuel
              (scan_inv_init h incoming)) as (prev & best & bp & Hfb & Hinv).
  eauto 6.
Qed.

(** Whatever the shape of the store, a best match that the loop returns is
    an open order that crosses the incoming one. *)
Lemma find_best_sound h incoming fuel :
  ∀ prev best bp cur best' bp',
    (∀ b, best = Some b →
          ∃ bo, h !! b = Some bo ∧ 0 < Order.quantity bo ∧ crossing incoming bo) →
    OrderBook.find_best fuel h incoming prev best bp cur = Some (best', bp') →
    ∀ b, best' = Some b →
         ∃ bo, h !! b = Some bo ∧ 0 < Order.quantity bo ∧ crossing incoming bo.
Proof.
  induction fuel as [|fuel IH]; intros prev best bp cur best' bp' Hbest; [done|].
  simpl. destruct cur as [c|]; [|by intros [= <- <-]].
  destruct (h !! c) as [o|] eqn:Ho; [|done]. simpl.
  destruct (Order.quantity o <=? 0) eqn:Hq; [by apply IH|].
  apply Z.leb_gt in Hq.
  destruct (OrderBook.eligible incoming o) eqn:Hel; [|by apply IH].
  apply eligible_crossing in Hel.
  destruct (OrderBook.improves h incoming o best) as [[|]|]; simpl;
    [|by apply IH|done].
  apply IH. intros ? [= <-]. eauto.
Qed.

Lemma last_open_None h l :
  last_open h None l = None → ∀ a, a ∈ l → is_open h a = false.
Proof.
  induction l as [|x l IH] using rev_ind; intros Hl a Ha.
  - by apply elem_of_nil in Ha.
  - rewrite last_open_snoc in Hl. destruct (is_open h x) eqn:Hx; [done|].
    apply elem_of_app in Ha as [Ha|Ha]; [eauto|].
    by apply list_elem_of_singleton in Ha as ->.
Qed.

Lemma last_open_Some h l p :
  last_open h None l = Some p →
  ∃ l1 mid, l = l1 ++ p :: mid ∧ is_open h p = true ∧
            ∀ a, a ∈ mid → is_open h a = false.
Proof.
  induction l as [|x l IH] using rev_ind; intros Hl; [done|].
  rewrite last_open_snoc in Hl. destruct (is_open h x) eqn:Hx.
  - injection Hl as ->. exists l, []. split_and!; try done.
    intros a Ha. by apply elem_of_nil in Ha.
  - destruct (IH Hl) as (l1 & mid & -> & Hp & Hmid).
    exists l1, (mid ++ [x]). rewrite <- app_assoc. split_and!; try done.
    intros a [Ha|Ha]%elem_of_app; [eauto|].
    by apply list_elem_of_singleton in Ha as ->.
Qed.

(** * Stores before and after a trade *)

Lemma lookup_sub_quantity h a d x o :
  h !! x = Some o →
  OrderBook.sub_quantity a d h !! x =
    Some (if decide (a = x) then Order.set_quantity (Order.quantity o - d) o else o).
Proof.
  intros Hx. unfold OrderBook.sub_quantity. rewrite list_lookup_alter.
  case_decide; subst; by rewrite Hx.
Qed.

Lemma chain_head_split h a pre b post :
  chain h (Some a) (pre ++ b :: post) → a = b → pre = [].
Proof.
  intros Hc ->. pose proof (chain_NoDup _ _ _ Hc) as Hnd.
  destruct pre as [|x pre]; [done|]. exfalso.
  destruct Hc as [[= <-] _]. simpl in Hnd.
  apply NoDup_cons in Hnd as [Hnd _]. apply Hnd.
  apply elem_of_app. right. left.
Qed.

(** Pointwise smaller quantities give a smaller open interest. *)
Lemma open_interest_le h h' :
  length h' = length h →
  (∀ a o o', h !! a = Some o → h' !! a = Some o' →
             Order.quantity o' ≤ Order.quantity o) →
  (open_interest h' ≤ open_interest h)%nat.
Proof.
  revert h'. induction h as [|o h IH]; intros [|o' h'] Hlen Hle; try done.
  unfold open_interest in *. simpl.
  pose proof (Hle 0%nat o o' eq_refl eq_refl).
  assert (sum_list_with (λ o, Z.to_nat (Order.quantity o)) h'
          ≤ sum_list_with (λ o, Z.to_nat (Order.quantity o)) h)%nat.
  { apply IH; [simpl in Hlen; lia|]. intros a. apply (Hle (S a)). }
  lia.
Qed.

Lemma open_interest_lt h h' i o o' :
  length h' = length h →
  (∀ a o o', h !! a = Some o → h' !! a = Some o' →
             Order.quantity o' ≤ Order.quantity o) →
  h !! i = Some o → h' !! i = Some o' →
  0 < Order.quantity o → Order.quantity o' < Order.quantity o →
  (open_interest h' < open_interest h)%nat.
Proof.
  revert h' i. induction h as [|x h IH]; intros [|x' h'] i Hlen Hle Hi Hi' Hq Hlt;
    try done.
  pose proof (Hle 0%nat x x' eq_refl eq_refl).
  assert (length h' = length h) as Hlen' by (simpl in Hlen; lia).
  assert (∀ a o o', h !! a = Some o → h' !! a = Some o' →
                    Order.quantity o' ≤ Order.quantity o) as Hle'.
  { intros a. apply (Hle (S a)). }
  destruct i as [|i]; simpl in Hi, Hi'.
  - injection Hi as ->. injection Hi' as ->.
    pose proof (open_interest_le h h' Hlen' Hle').
    unfold open_interest in *. simpl. lia.
  - pose proof (IH h' i Hlen' Hle' Hi Hi' Hq Hlt).
    unfold open_interest in *. simpl. lia.
Qed.

Lemma trade_frame h i b t a o :
  i ≠ b → h !! a = Some o →
  ∃ o', OrderBook.sub_quantity b t (OrderBook.sub_quantity i t h) !! a = Some o' ∧
        traded_from (if decide (a = i ∨ a = b) then t else 0) o o' ∧
        Order.next o' = Order.next o.
Proof.
  intros Hne Ha.
  pose proof (lookup_sub_quantity h i t a o Ha) as H1.
  pose proof (lookup_sub_quantity _ b t a _ H1) as H2.
  eexists. split; [exact H2|]. unfold traded_from.
  repeat case_decide; subst; simpl; split_and!; try done; try lia;
    exfalso; intuition congruence.
Qed.

Lemma relink_frame (h : list Order.t) (p : addr) n (a : addr) o d o0 :
  h !! a = Some o → traded_from d o0 o →
  ∃ o', alter (Order.set_next n) p h !! a = Some o' ∧ traded_from d o0 o'.
Proof.
  intros Ha Ht. rewrite list_lookup_alter. case_decide; subst; rewrite Ha; simpl; eauto.
Qed.

(** Every run of [match_order] on a finite book: what the search found and
    what became of the book. *)
Lemma match_order_outcome fuel st i thread_id l inc :
  chain (OrderBook.heap st) (OrderBook.head st) l → (length l < fuel)%nat →
  OrderBook.heap st !! i = Some inc →
  ∃ prev best bp,
    OrderBook.find_best fuel (OrderBook.heap st) inc None None None (OrderBook.head st)
      = Some (best, bp) ∧
    scan_inv (OrderBook.heap st) inc l prev best bp ∧
    match best with
    | None => OrderBook.match_order fuel st i thread_id = Some (false, st)
    | Some b =>
        ∃ bo, OrderBook.heap st !! b = Some bo ∧
          if decide (Z.min (Order.quantity inc) (Order.quantity bo) = 0) then
            OrderBook.match_order fuel st i thread_id = Some (false, st)
          else
            ∃ st' l', OrderBook.match_order fuel st i thread_id = Some (true, st') ∧
                      trade_post st i thread_id l inc b bo bp st' l'
    end.
Proof.
  intros Hc Hfuel Hinc.
  destruct (find_best_chain _ inc _ _ _ Hc Hfuel) as (prev & best & bp & Hfb & Hinv).
  exists prev, best, bp. split_and!; try done.
  unfold OrderBook.match_order. rewrite Hinc. simpl. rewrite Hfb. simpl.
  destruct best as [b|]; [|done].
  destruct Hinv as [_ (pre & post & bo & Hl & Hb & Hqb & Hx & Hbp & _)].
  exists bo. split; [done|]. rewrite Hb. simpl.
  set (t := Z.min (Order.quantity inc) (Order.quantity bo)).
  destruct (Z.eqb_spec t 0) as [Ht|Ht]; case_decide; try done.
  assert (i ≠ b) as Hib.
  { intros ->. rewrite Hinc in Hb. injection Hb as ->. by eapply crossing_neq. }
  set (h := OrderBook.heap st) in *.
  set (h2 := OrderBook.sub_quantity b t (OrderBook.sub_quantity i t h)).
  destruct (trade_frame h i b t b bo Hib Hb) as (bo' & Hb' & Hfr & Hnext).
  fold h2 in Hb'. rewrite decide_True in Hfr by auto.
  assert (chain h2 (OrderBook.head st) l) as Hc2.
  { unfold h2, OrderBook.sub_quantity.
    do 2 (apply chain_alter_keep_next; [done|]). done. }
  assert (length h2 = length h) as Hlen.
  { unfold h2, OrderBook.sub_quantity. by rewrite !length_alter. }
  assert (∀ a o, h !! a = Some o →
            ∃ o', h2 !! a = Some o' ∧
                  traded_from (if decide (a = i ∨ a = b) then t else 0) o o') as Hframe.
  { intros a o Ha. destruct (trade_frame h i b t a o Hib Ha) as (o' & ? & ? & _). eauto. }
  cbn [OrderBook.heap OrderBook.print OrderBook.set_heap OrderBook.head OrderBook.out].
  fold h h2. rewrite Hb'. simpl.
  destruct Hfr as (_ & _ & _ & Hq').
  destruct (Z.eqb_spec (Order.quantity bo') 0) as [Hz|Hz].
  - (* the best match is exhausted *)
    destruct bp as [p|].
    + (* relink the predecessor *)
      symmetry in Hbp. apply last_open_Some in Hbp as (l1 & mid & -> & Hp & Hmid).
      rewrite <- app_assoc in Hl. simpl in Hl. subst l.
      eexists _, (l1 ++ p :: post). split; [done|].
      unfold trade_post. fold t. cbn. fold h h2. split_and!.
      * done.
      * by rewrite length_alter.
      * intros a o Ha. destruct (Hframe a o Ha) as (o' & Ho' & Hfr').
        by eapply relink_frame.
      * by eapply chain_unlink.
      * apply sublist_app; [done|]. apply sublist_skip.
        apply sublist_inserts_l. by apply sublist_cons.
      * intros Hi. rewrite !elem_of_app, !elem_of_cons, !elem_of_app, !elem_of_cons in *.
        destruct Hi as [?|[?|[Hi|[?|?]]]]; auto; [|done].
        apply Hmid in Hi. unfold is_open in Hi. fold h in Hi. rewrite Hinc in Hi.
        apply negb_false_iff, Z.leb_le in Hi. lia.
      * intros a. rewrite !elem_of_app, !elem_of_cons, !elem_of_app, !elem_of_cons.
        intros [?|[?|[Ha|[?|?]]]]; auto 6.
      * intros _ _. apply chain_NoDup in Hc.
        apply NoDup_app in Hc as (_ & Hl1 & Hnd).
        apply NoDup_cons in Hnd as (Hpn & Hnd).
        apply NoDup_app in Hnd as (_ & _ & Hnd).
        apply NoDup_cons in Hnd as (Hbn & _).
        rewrite !elem_of_app, !elem_of_cons.
        intros [Hin|[->|Hin]]; [|apply Hpn|done].
        -- eapply Hl1; [done|]. right. apply elem_of_app. right. left.
        -- apply elem_of_app. right. left.
    + (* compare-and-swap on the head *)
      unfold OrderBook.atomic_compare_and_swap.
      cbn [OrderBook.heap OrderBook.print OrderBook.set_heap OrderBook.head OrderBook.out].
      destruct (decide (OrderBook.head st = Some b)) as [Hhd|Hhd].
      * eexists _, post. split; [done|].
        rewrite Hhd in Hc, Hc2. subst l.
        assert (pre = []) as -> by by eapply chain_head_split.
        pose proof (chain_NoDup _ _ _ Hc) as Hnd.
        simpl in *. unfold trade_post. fold t. cbn. fold h h2. split_and!; try done.
        -- destruct Hc2 as [_ (x & Hx' & Hc2)].
           rewrite Hb' in Hx'. by injection Hx' as <-.
        -- by apply sublist_cons.
        -- intros [?|?]%elem_of_cons; done.
        -- intros a [?|?]%elem_of_cons; auto.
        -- intros _ _. by apply NoDup_cons in Hnd as [? _].
      * eexists _, l. split; [done|].
        unfold trade_post. fold t. cbn. fold h h2. split_and!; try done; auto.
        intros _ [[? ?]|?]; done.
  - (* the best match keeps a remainder *)
    eexists _, l. split; [done|].
    unfold trade_post. fold t. cbn. fold h h2. split_and!; try done; auto.
    intros Heq. lia.
Qed.

(** A compare-and-swap on the head touches neither the store nor the log. *)
Lemma cas_heap_out st old new :
  OrderBook.heap (OrderBook.atomic_compare_and_swap st old new).2 = OrderBook.heap st ∧
  OrderBook.out (OrderBook.atomic_compare_and_swap st old new).2 = OrderBook.out st.
Proof. unfold OrderBook.atomic_compare_and_swap. by destruct (decide _). Qed.

(** A reported trade, whatever the shape of the store: the search returned
    an open crossing order, the trade was logged and the store changed only
    by the two quantities (and possibly a link). *)
Lemma match_order_true_inv fuel st i thread_id st' :
  OrderBook.match_order fuel st i thread_id = Some (true, st') →
  ∃ b bp inc bo,
    OrderBook.heap st !! i = Some inc ∧ OrderBook.heap st !! b = Some bo ∧
    OrderBook.find_best fuel (OrderBook.heap st) inc None None None (OrderBook.head st)
      = Some (Some b, bp) ∧
    i ≠ b ∧ 0 < Order.quantity bo ∧ crossing inc bo ∧
    Z.min (Order.quantity inc) (Order.quantity bo) ≠ 0 ∧
    OrderBook.out st' =
      OrderBook.out st ++
        [MatchFound thread_id (Order.str bo)
           (Z.min (Order.quantity inc) (Order.quantity bo)) (Order.price bo)] ∧
    length (OrderBook.heap st') = length (OrderBook.heap st) ∧
    ∀ a o, OrderBook.heap st !! a = Some o →
      ∃ o', OrderBook.heap st' !! a = Some o' ∧
            traded_from (if decide (a = i ∨ a = b)
                         then Z.min (Order.quantity inc) (Order.quantity bo) else 0) o o'.
Proof.
  unfold OrderBook.match_order.
  destruct (OrderBook.heap st !! i) as [inc|] eqn:Hinc; [|done]. simpl.
  destruct (OrderBook.find_best _ _ _ _ _ _ _) as [[[b|] bp]|] eqn:Hfb; try done.
  simpl.
  assert (∃ bo, OrderBook.heap st !! b = Some bo ∧ 0 < Order.quantity bo ∧
                crossing inc bo) as (bo & Hb & Hqb & Hx).
  { eapply find_best_sound; [|exact Hfb|done]. done. }
  rewrite Hb. simpl.
  set (t := Z.min (Order.quantity inc) (Order.quantity bo)).
  destruct (Z.eqb_spec t 0) as [Ht|Ht]; [done|].
  assert (i ≠ b) as Hib.
  { intros ->. rewrite Hinc in Hb. injection Hb as ->. by eapply crossing_neq. }
  set (h := OrderBook.heap st) in *.
  set (h2 := OrderBook.sub_quantity b t (OrderBook.sub_quantity i t h)).
  destruct (trade_frame h i b t b bo Hib Hb) as (bo' & Hb' & _).
  fold h2 in Hb'.
  cbn [OrderBook.heap OrderBook.print OrderBook.set_heap OrderBook.head OrderBook.out].
  fold h h2. rewrite Hb'. simpl.
  assert (∀ a o, h !! a = Some o →
            ∃ o', h2 !! a = Some o' ∧
                  traded_from (if decide (a = i ∨ a = b) then t else 0) o o') as Hframe.
  { intros a o Ha. destruct (trade_frame h i b t a o Hib Ha) as (o' & ? & ? & _). eauto. }
  intros Hst'. exists b, bp, inc, bo. fold t. split_and!; try done.
  - destruct (Order.quantity bo' =? 0); [destruct bp|];
      injection Hst' as <-; try done.
    by rewrite (proj2 (cas_heap_out _ _ _)).
  - assert (length h2 = length h) as Hlen.
    { unfold h2, OrderBook.sub_quantity. by rewrite !length_alter. }
    destruct (Order.quantity bo' =? 0); [destruct bp|];
      injection Hst' as <-; try done.
    + cbn. by rewrite length_alter.
    + by rewrite (proj1 (cas_heap_out _ _ _)).
  - intros a o Ha. destruct (Hframe a o Ha) as (o' & Ho' & Hfr).
    destruct (Order.quantity bo' =? 0); [destruct bp|];
      injection Hst' as <-.
    + by eapply relink_frame.
    + rewrite (proj1 (cas_heap_out _ _ _)). eauto.
    + eauto.
Qed.

(** * Walking the whole chain *)

Lemma get_order_list_from_chain h c l fuel :
  chain h c l → (length l < fuel)%nat →
  OrderBook.get_order_list_from fuel h c = Some l.
Proof.
  revert c fuel. induction l as [|a l IH]; intros c fuel Hc Hfuel;
    (destruct fuel as [|fuel]; [simpl in Hfuel; lia|]).
  - simpl in Hc. by subst c.
  - destruct Hc as [-> (o & Ho & Hc)]. simpl. rewrite Ho. simpl.
    rewrite (IH _ fuel Hc); [done|]. simpl in Hfuel. lia.
Qed.

Lemma get_order_list_from_sound h fuel :
  ∀ c l, OrderBook.get_order_list_from fuel h c = Some l → chain h c l.
Proof.
  induction fuel as [|fuel IH]; intros c l; [done|]. simpl.
  destruct c as [c|]; [|by intros [= <-]].
  destruct (h !! c) as [o|] eqn:Ho; [|done]. simpl.
  destruct (OrderBook.get_order_list_from fuel h (Order.next o)) as [rest|] eqn:Hr;
    [|done].
  simpl. intros [= <-]. split; [done|]. exists o. split; [done|]. by apply IH.
Qed.

Lemma display_from_chain h c l fuel :
  chain h c l → (length l < fuel)%nat →
  OrderBook.display_from fuel h c = Some (open_rows h l).
Proof.
  revert c fuel. induction l as [|a l IH]; intros c fuel Hc Hfuel;
    (destruct fuel as [|fuel]; [simpl in Hfuel; lia|]).
  - simpl in Hc. by subst c.
  - destruct Hc as [-> (o & Ho & Hc)]. simpl. rewrite Ho. simpl.
    rewrite (IH _ fuel Hc) by (simpl in Hfuel; lia). simpl.
    change (open_rows h (a :: l)) with
      (match (o ← h !! a; if 0 <? Order.quantity o then Some (Order.str o) else None)
       with Some r => r :: open_rows h l | None => open_rows h l end).
    by destruct (0 <? Order.quantity o).
Qed.

(** * More fuel changes nothing *)

Lemma find_best_mono h incoming fuel :
  ∀ fuel' prev best bp cur r,
    (fuel ≤ fuel')%nat →
    OrderBook.find_best fuel h incoming prev best bp cur = Some r →
    OrderBook.find_best fuel' h incoming prev best bp cur = Some r.
Proof.
  induction fuel as [|fuel IH]; intros fuel' prev best bp cur r Hle; [done|].
  destruct fuel' as [|fuel']; [lia|]. assert (fuel ≤ fuel')%nat as Hle' by lia.
  simpl. destruct cur as [c|]; [|done].
  destruct (h !! c) as [o|]; [|done]. simpl.
  destruct (Order.quantity o <=? 0); [by apply IH|].
  destruct (OrderBook.eligible incoming o); [|by apply IH].
  destruct (OrderBook.improves h incoming o best) as [[|]|]; simpl;
    [by apply IH..|done].
Qed.

Lemma match_order_mono fuel fuel' st i thread_id r :
  (fuel ≤ fuel')%nat →
  OrderBook.match_order fuel st i thread_id = Some r →
  OrderBook.match_order fuel' st i thread_id = Some r.
Proof.
  intros Hle. unfold OrderBook.match_order.
  destruct (OrderBook.heap st !! i) as [inc|]; [|done]. simpl.
  destruct (OrderBook.find_best fuel _ _ _ _ _ _) as [x|] eqn:Hfb; [|done].
  by rewrite (find_best_mono _ _ _ _ _ _ _ _ _ Hle Hfb).
Qed.

Lemma process_orders_from_mono thread_id fuel :
  ∀ fuel' st cur r,
    (fuel ≤ fuel')%nat →
    OrderBook.process_orders_from fuel st thread_id cur = Some r →
    OrderBook.process_orders_from fuel' st thread_id cur = Some r.
Proof.
  induction fuel as [|fuel IH]; intros fuel' st cur r Hle; [done|].
  destruct fuel' as [|fuel']; [lia|]. assert (fuel ≤ fuel')%nat as Hle' by lia.
  simpl. destruct cur as [c|]; [|done].
  destruct (OrderBook.heap st !! c) as [o|]; [|done]. simpl.
  destruct (0 <? Order.quantity o); [|by apply IH].
  destruct (OrderBook.match_order fuel st c thread_id) as [[m st1]|] eqn:Hm; [|done].
  rewrite (match_order_mono _ _ _ _ _ _ Hle' Hm). simpl.
  destruct m; [by apply IH|].
  destruct (OrderBook.heap st1 !! c) as [o'|]; [|done]. simpl. by apply IH.
Qed.

(** * The sweep ends *)

(** A trade started by an open order lowers the open interest. *)
Lemma trade_post_open_interest st i thread_id l inc b bo bp st' l' :
  OrderBook.heap st !! i = Some inc → 0 < Order.quantity inc → 0 < Order.quantity bo →
  trade_post st i thread_id l inc b bo bp st' l' →
  (open_interest (OrderBook.heap st') < open_interest (OrderBook.heap st))%nat.
Proof.
  intros Hinc Hqi Hqb (_ & Hlen & Hframe & _).
  destruct (Hframe i inc Hinc) as (inc' & Hi' & _ & _ & _ & Hq).
  rewrite decide_True in Hq by auto.
  eapply open_interest_lt; [done| |done..|lia].
  intros a o o' Ha Ha'. destruct (Hframe a o Ha) as (o'' & Ha'' & _ & _ & _ & Hq').
  rewrite Ha' in Ha''. injection Ha'' as <-. case_decide; lia.
Qed.

Lemma process_orders_from_total thread_id fuel :
  ∀ st cur l l0 lc,
    chain (OrderBook.heap st) (OrderBook.head st) l → l = l0 ++ lc →
    chain (OrderBook.heap st) cur lc →
    (open_interest (OrderBook.heap st) * (length l + 2) + length lc + length l + 2
     ≤ fuel)%nat →
    ∃ st' l', OrderBook.process_orders_from fuel st thread_id cur = Some st' ∧
              chain (OrderBook.heap st') (OrderBook.head st') l' ∧
              l' `sublist_of` l ∧
              (quiescent (OrderBook.heap st) l → st' = st).
Proof.
  induction fuel as [|fuel IH]; intros st cur l l0 lc Hc Hl Hcur Hfuel; [lia|].
  destruct lc as [|c lc].
  { simpl in Hcur. subst cur. simpl. exists st, l. done. }
  destruct Hcur as [-> (o & Ho & Hcur)]. simpl. rewrite Ho. simpl.
  simpl in Hfuel.
  assert (l = (l0 ++ [c]) ++ lc) as Hl' by (by rewrite <- app_assoc).
  destruct (0 <? Order.quantity o) eqn:Hq.
  - apply Z.ltb_lt in Hq.
    destruct (match_order_outcome fuel st c thread_id l o Hc ltac:(lia) Ho)
      as (prev & best & bp & Hfb & Hinv & Hres).
    destruct best as [b|].
    + destruct Hres as (bo & Hb & Hres).
      destruct Hinv as [_ (pre & post & bo' & Hlb & Hb' & Hqb & Hx & _)].
      rewrite Hb in Hb'. injection Hb' as <-.
      destruct (decide _) as [Hz|Hz]; [lia|].
      destruct Hres as (st' & l' & Hm & Hpost). rewrite Hm. simpl.
      pose proof (trade_post_open_interest _ _ _ _ _ _ _ _ _ _ Ho Hq Hqb Hpost) as Hoi.
      pose proof Hpost as (_ & _ & _ & Hc' & Hsub & _).
      pose proof (sublist_length _ _ Hsub) as Hlen.
      destruct (IH st' (OrderBook.head st') l' [] l' Hc' eq_refl Hc')
        as (st'' & l'' & Hp & Hc'' & Hsub'' & _).
      { destruct (open_interest (OrderBook.heap st)) as [|k]; [lia|].
        assert (open_interest (OrderBook.heap st') * (length l' + 2)
                ≤ k * (length l + 2))%nat by (apply Nat.mul_le_mono; lia).
        lia. }
      exists st'', l''. split_and!; [done|done|by etrans|].
      intros Hqu. exfalso.
      eapply (Hqu c b o bo); try done.
      * subst l. apply elem_of_app. right. left.
      * rewrite Hlb. apply elem_of_app. right. left.
    + rewrite Hres. simpl. rewrite Ho. simpl.
      apply (IH st (Order.next o) l (l0 ++ [c]) lc); try done. lia.
  - apply (IH st (Order.next o) l (l0 ++ [c]) lc); try done. lia.
Qed.

(** * What holds of every run, finite book or not *)

Lemma match_order_false_inv fuel st i thread_id st' :
  OrderBook.match_order fuel st i thread_id = Some (false, st') → st' = st.
Proof.
  unfold OrderBook.match_order.
  destruct (OrderBook.heap st !! i) as [inc|]; [|done]. simpl.
  destruct (OrderBook.find_best _ _ _ _ _ _ _) as [[[b|] bp]|]; simpl;
    [|by intros [= <-]|done].
  destruct (OrderBook.heap st !! b) as [bo|]; [|done]. simpl.
  destruct (_ =? 0); [by intros [= <-]|].
  destruct (_ !! b) as [bo'|]; [|done]. simpl.
  destruct (_ =? 0); [destruct bp|]; done.
Qed.

(** A quantity that is not negative stays so, and a quantity of 0 stays 0. *)
Lemma match_order_quantity_sign fuel st i thread_id r st' a o' :
  OrderBook.match_order fuel st i thread_id = Some (r, st') →
  OrderBook.heap st' !! a = Some o' →
  ∃ o, OrderBook.heap st !! a = Some o ∧
       (0 <= Order.quantity o → 0 <= Order.quantity o') ∧
       (Order.quantity o = 0 → Order.quantity o' = 0).
Proof.
  intros Hm Ha'. destruct r.
  - destruct (match_order_true_inv _ _ _ _ _ Hm)
      as (b & bp & inc & bo & Hinc & Hb & _ & Hib & Hqb & _ & Ht & _ & Hlen & Hframe).
    destruct (OrderBook.heap st !! a) as [o|] eqn:Ha.
    + destruct (Hframe a o Ha) as (o'' & Ha'' & _ & _ & _ & Hq).
      rewrite Ha' in Ha''. injection Ha'' as <-. exists o. split; [done|].
      case_decide as Hab; [|split; lia].
      destruct Hab as [->| ->].
      * rewrite Hinc in Ha. injection Ha as <-. split; lia.
      * rewrite Hb in Ha. injection Ha as <-. split; lia.
    + apply lookup_ge_None in Ha. apply lookup_lt_Some in Ha'. lia.
  - apply match_order_false_inv in Hm as ->. eauto.
Qed.

Lemma process_orders_from_quantity_sign thread_id fuel :
  ∀ st cur st' a o',
    OrderBook.process_orders_from fuel st thread_id cur = Some st' →
    OrderBook.heap st' !! a = Some o' →
    ∃ o, OrderBook.heap st !! a = Some o ∧
         (0 <= Order.quantity o → 0 <= Order.quantity o') ∧
         (Order.quantity o = 0 → Order.quantity o' = 0).
Proof.
  induction fuel as [|fuel IH]; intros st cur st' a o'; [done|]. simpl.
  destruct cur as [c|]; [|intros [= <-]; eauto].
  destruct (OrderBook.heap st !! c) as [oc|]; [|done]. simpl.
  destruct (0 <? Order.quantity oc); [|by apply IH].
  destruct (OrderBook.match_order fuel st c thread_id) as [[m st1]|] eqn:Hm; [|done].
  simpl. intros Hp Ha'.
  assert (∃ o1, OrderBook.heap st1 !! a = Some o1 ∧
                (0 <= Order.quantity o1 → 0 <= Order.quantity o') ∧
                (Order.quantity o1 = 0 → Order.quantity o' = 0))
    as (o1 & Ha1 & Hs1 & Hz1).
  { destruct m; [by eapply IH|].
    destruct (OrderBook.heap st1 !! c) as [oc'|]; [|done]. by eapply IH. }
  destruct (match_order_quantity_sign _ _ _ _ _ _ _ _ Hm Ha1) as (o & Ha & Hs & Hz).
  exists o. split_and!; auto.
Qed.

(** The sweep never raises the open interest. *)
Lemma match_order_open_interest fuel st i thread_id r st' :
  OrderBook.match_order fuel st i thread_id = Some (r, st') →
  (open_interest (OrderBook.heap st') ≤ open_interest (OrderBook.heap st))%nat
  ∨ ∃ inc, OrderBook.heap st !! i = Some inc ∧ Order.quantity inc < 0.
Proof.
  intros Hm. destruct r; [|apply match_order_false_inv in Hm as ->; by left].
  destruct (match_order_true_inv _ _ _ _ _ Hm)
    as (b & bp & inc & bo & Hinc & Hb & _ & Hib & Hqb & _ & Ht & _ & Hlen & Hframe).
  destruct (Z.lt_ge_cases (Order.quantity inc) 0) as [Hneg|Hpos]; [right; eauto|].
  left. apply open_interest_le; [done|].
  intros a o o' Ha Ha'. destruct (Hframe a o Ha) as (o'' & Ha'' & _ & _ & _ & Hq).
  rewrite Ha' in Ha''. injection Ha'' as <-. case_decide; lia.
Qed.

Lemma process_orders_from_open_interest thread_id fuel :
  ∀ st cur st',
    OrderBook.process_orders_from fuel st thread_id cur = Some st' →
    (open_interest (OrderBook.heap st') ≤ open_interest (OrderBook.heap st))%nat.
Proof.
  induction fuel as [|fuel IH]; intros st cur st'; [done|]. simpl.
  destruct cur as [c|]; [|by intros [= <-]].
  destruct (OrderBook.heap st !! c) as [oc|] eqn:Hc; [|done]. simpl.
  destruct (0 <? Order.quantity oc) eqn:Hq; [|by apply IH].
  apply Z.ltb_lt in Hq.
  destruct (OrderBook.match_order fuel st c thread_id) as [[m st1]|] eqn:Hm; [|done].
  simpl. intros Hp.
  assert (open_interest (OrderBook.heap st') ≤ open_interest (OrderBook.heap st1))%nat.
  { destruct m; [by eapply IH|].
    destruct (OrderBook.heap st1 !! c) as [oc'|]; [|done]. by eapply IH. }
  destruct (match_order_open_interest _ _ _ _ _ _ Hm) as [?|(inc & Hinc & ?)]; [lia|].
  rewrite Hc in Hinc. injection Hinc as <-. lia.
Qed.

(** * Insertion at the head *)

Lemma add_order_prepends st a o l :
  chain (OrderBook.heap st) (OrderBook.head st) l →
  OrderBook.heap st !! a = Some o → a ∉ l →
  ∃ st', OrderBook.add_order st a = Some st' ∧
         chain (OrderBook.heap st') (OrderBook.head st') (a :: l) ∧
         OrderBook.out st' = OrderBook.out st ++ [OrderAdded (Order.str o)].
Proof.
  intros Hc Ha Hal. unfold OrderBook.add_order, OrderBook.atomic_compare_and_swap.
  cbn. rewrite decide_True by done. cbn.
  rewrite list_lookup_alter_eq, Ha. cbn. eexists. split; [done|]. cbn.
  split; [|done]. split; [done|]. eexists.
  rewrite list_lookup_alter_eq, Ha. split; [done|]. cbn.
  by apply chain_alter_outside.
Qed.

Lemma submit_prepends st order_type ticker quantity price l :
  chain (OrderBook.heap st) (OrderBook.head st) l →
  ∃ st', TradingEngine.submit st order_type ticker quantity price
           = Some (length (OrderBook.heap st), st') ∧
         chain (OrderBook.heap st') (OrderBook.head st') (length (OrderBook.heap st) :: l).
Proof.
  intros Hc. unfold TradingEngine.submit, OrderBook.new_Order.
  set (o := Order.init order_type ticker quantity price).
  set (st1 := OrderBook.mk _ _ _).
  assert (∀ x, x ∈ l → (x < length (OrderBook.heap st))%nat) as Hlt.
  { intros x Hx. destruct (chain_lookup _ _ _ _ Hc Hx) as [ox Hox].
    by apply lookup_lt_Some in Hox. }
  destruct (add_order_prepends st1 (length (OrderBook.heap st)) o l)
    as (st' & Hadd & Hc' & _).
  - unfold st1. cbn. eapply chain_ext; [|done].
    intros x Hx. by rewrite lookup_app_l by auto.
  - unfold st1. cbn. rewrite lookup_app_r by done. by rewrite Nat.sub_diag.
  - intros Hin. apply Hlt in Hin. lia.
  - rewrite Hadd. cbn. eauto.
Qed.

(** * When the exhausted best match does leave the chain *)

Lemma exhausted_match_unlinked fuel st i thread_id l inc b bp bo st' :
  chain (OrderBook.heap st) (OrderBook.head st) l → (length l < fuel)%nat →
  OrderBook.heap st !! i = Some inc →
  OrderBook.find_best fuel (OrderBook.heap st) inc None None None (OrderBook.head st)
    = Some (Some b, bp) →
  OrderBook.heap st !! b = Some bo →
  OrderBook.match_order fuel st i thread_id = Some (true, st') →
  Order.quantity bo <= Order.quantity inc →
  is_Some bp ∨ OrderBook.head st = Some b →
  ∃ l', chain (OrderBook.heap st') (OrderBook.head st') l' ∧ b ∉ l'.
Proof.
  intros Hc Hfuel Hinc Hfb Hb Hm Hle Hbp.
  destruct (match_order_outcome fuel st i thread_id l inc Hc Hfuel Hinc)
    as (prev & best & bp' & Hfb' & _ & Hres).
  rewrite Hfb in Hfb'. injection Hfb' as <- <-.
  destruct Hres as (bo' & Hb' & Hres). rewrite Hb in Hb'. injection Hb' as <-.
  destruct (decide _) as [Hz|Hz]; [by rewrite Hm in Hres|].
  destruct Hres as (st'' & l' & Hm' & Hpost).
  rewrite Hm in Hm'. injection Hm' as <-.
  destruct Hpost as (_ & _ & _ & Hc' & _ & _ & _ & Hgone).
  exists l'. split; [done|]. apply Hgone; [lia|done].
Qed.

(** * Properties of the specification *)

(** C1.  On every finite book and for every incoming order the search of
    [match_order] ends.  The loop's eligibility test is exactly the crossing
    rule (same ticker, opposite sides, price on the right side of the
    incoming price).  The node it selects has positive quantity and crosses;
    every crossing node of positive quantity scanned before it has a strictly
    worse price and every one scanned after it has no better price, so the
    lowest (incoming BUY) or highest (incoming SELL) price wins and the
    earliest scanned node wins a tie.  Nothing is selected exactly when no
    node of positive quantity crosses. *)
Theorem find_best_selects h incoming c l fuel :
  chain h c l → (length l < fuel)%nat →
  (∀ o, OrderBook.eligible incoming o = true ↔ crossing incoming o) ∧
  ∃ best bp,
    OrderBook.find_best fuel h incoming None None None c = Some (best, bp) ∧
    match best with
    | None =>
        ∀ a o, a ∈ l → h !! a = Some o → 0 < Order.quantity o → ¬ crossing incoming o
    | Some b =>
        ∃ pre post bo,
          l = pre ++ b :: post ∧ h !! b = Some bo ∧
          0 < Order.quantity bo ∧ crossing incoming bo ∧
          (∀ a o, a ∈ pre → h !! a = Some o → 0 < Order.quantity o →
                  crossing incoming o → beats incoming bo o) ∧
          (∀ a o, a ∈ post → h !! a = Some o → 0 < Order.quantity o →
                  crossing incoming o → as_good incoming bo o)
    end.
Proof.
  intros Hc Hfuel. split; [apply eligible_crossing|].
  destruct (find_best_chain h incoming c l fuel Hc Hfuel)
    as (prev & best & bp & Hfb & _ & Hbest).
  exists best, bp. split; [done|].
  destruct best as [b|].
  - destruct Hbest as (pre & post & bo & ? & ? & ? & ? & _ & ? & ?).
    exists pre, post, bo. done.
  - by destruct Hbest as [_ ?].
Qed.

(** C2.  Whenever [match_order] reports a trade, the traded quantity is the
    minimum of the two remaining quantities before the trade, both orders
    lose exactly that quantity, the trade is logged at the candidate's price,
    and the candidate crosses the incoming order: its price is at most the
    price of an incoming BUY and at least the price of an incoming SELL. *)
Theorem trade_conserves_quantity fuel st i thread_id st' :
  OrderBook.match_order fuel st i thread_id = Some (true, st') →
  ∃ b bp inc bo inc' bo',
    OrderBook.heap st !! i = Some inc ∧ OrderBook.heap st !! b = Some bo ∧
    OrderBook.find_best fuel (OrderBook.heap st) inc None None None (OrderBook.head st)
      = Some (Some b, bp) ∧
    OrderBook.heap st' !! i = Some inc' ∧ OrderBook.heap st' !! b = Some bo' ∧
    let traded := Z.min (Order.quantity inc) (Order.quantity bo) in
    OrderBook.out st' =
      OrderBook.out st ++ [MatchFound thread_id (Order.str bo) traded (Order.price bo)] ∧
    Order.quantity inc' + traded = Order.quantity inc ∧
    Order.quantity bo' + traded = Order.quantity bo ∧
    crossing inc bo ∧
    (Order.type inc = OrderType.BUY → Order.price bo <= Order.price inc) ∧
    (Order.type inc = OrderType.SELL → Order.price bo >= Order.price inc).
Proof.
  intros Hm.
  destruct (match_order_true_inv _ _ _ _ _ Hm)
    as (b & bp & inc & bo & Hinc & Hb & Hfb & Hib & Hqb & Hx & Ht & Hout & _ & Hframe).
  destruct (Hframe i inc Hinc) as (inc' & Hi' & _ & _ & _ & Hqi).
  destruct (Hframe b bo Hb) as (bo' & Hb' & _ & _ & _ & Hqb').
  rewrite decide_True in Hqi by auto. rewrite decide_True in Hqb' by auto.
  exists b, bp, inc, bo, inc', bo'. cbn zeta.
  pose proof BUY_neq_SELL.
  split_and!; try done; try lia.
  - destruct Hx as [_ [(? & ? & ?)|(? & ? & ?)]]; [done|congruence].
  - destruct Hx as [_ [(? & ? & ?)|(? & ? & ?)]]; [congruence|done].
Qed.

(** C7.  On a finite book [match_order] always returns.  It returns false
    when the search finds nothing, which is the case when no open order
    crosses, and when the traded quantity computed from the best match is 0;
    whenever it returns false the whole state (quantities, links, head and
    printed lines) is the one it started from. *)
Theorem match_order_never_raises fuel st i thread_id l inc :
  chain (OrderBook.heap st) (OrderBook.head st) l → (length l < fuel)%nat →
  OrderBook.heap st !! i = Some inc →
  ∃ r st' best bp,
    OrderBook.match_order fuel st i thread_id = Some (r, st') ∧
    OrderBook.find_best fuel (OrderBook.heap st) inc None None None (OrderBook.head st)
      = Some (best, bp) ∧
    (r = false → st' = st) ∧
    (best = None → r = false) ∧
    ((∀ a o, a ∈ l → OrderBook.heap st !! a = Some o → 0 < Order.quantity o →
             ¬ crossing inc o) → best = None) ∧
    (∀ b bo, best = Some b → OrderBook.heap st !! b = Some bo →
             Z.min (Order.quantity inc) (Order.quantity bo) = 0 → r = false).
Proof.
  intros Hc Hfuel Hinc.
  destruct (match_order_outcome fuel st i thread_id l inc Hc Hfuel Hinc)
    as (prev & best & bp & Hfb & Hinv & Hres).
  destruct best as [b|].
  - destruct Hres as (bo & Hb & Hres).
    destruct Hinv as [_ (pre & post & bo' & Hl & Hb' & Hqb & Hx & _)].
    rewrite Hb in Hb'. injection Hb' as <-.
    assert (¬ ∀ a o, a ∈ l → OrderBook.heap st !! a = Some o →
                     0 < Order.quantity o → ¬ crossing inc o) as Hsome.
    { intros Hno. eapply (Hno b bo); try done.
      rewrite Hl. apply elem_of_app. right. left. }
    destruct (decide _) as [Hz|Hz].
    + exists false, st, (Some b), bp. split_and!; try done.
    + destruct Hres as (st' & l' & Hm & _).
      exists true, st', (Some b), bp. split_and!; try done.
      intros b' bo' [= <-] Hb'. rewrite Hb in Hb'. by injection Hb' as <-.
  - exists false, st, None, bp. split_and!; done.
Qed.

(** C8.  On every finite book [process_orders] ends: beyond some amount of
    fuel it returns one and the same final state.  On a book in which no two
    open orders cross, that state is the initial one: nothing was traded,
    printed or relinked. *)
Theorem process_orders_terminates st thread_id l :
  chain (OrderBook.heap st) (OrderBook.head st) l →
  ∃ n st' l',
    (∀ fuel, (n ≤ fuel)%nat → OrderBook.process_orders fuel st thread_id = Some st') ∧
    chain (OrderBook.heap st') (OrderBook.head st') l' ∧
    l' `sublist_of` l ∧
    (open_interest (OrderBook.heap st') ≤ open_interest (OrderBook.heap st))%nat ∧
    (quiescent (OrderBook.heap st) l → st' = st).
Proof.
  intros Hc.
  set (n := (open_interest (OrderBook.heap st) * (length l + 2)
             + length l + length l + 2)%nat).
  destruct (process_orders_from_total thread_id n st (OrderBook.head st) l [] l
              Hc eq_refl Hc ltac:(done)) as (st' & l' & Hp & Hc' & Hsub & Hq).
  exists n, st', l'. split_and!; try done.
  - intros fuel Hle. by eapply process_orders_from_mono.
  - by eapply process_orders_from_open_interest.
Qed.

(** C9.  Creating an order never fails, and the new object holds
    [max(1, quantity)]: a requested quantity of zero or less becomes 1, any
    other is kept. *)
Theorem new_order_quantity st order_type ticker quantity price :
  ∃ o, OrderBook.heap (OrderBook.new_Order st order_type ticker quantity price).2
         !! (OrderBook.new_Order st order_type ticker quantity price).1 = Some o ∧
       o = Order.init order_type ticker quantity price ∧
       Order.quantity o = Z.max 1 quantity ∧
       1 <= Order.quantity o ∧
       Order.quantity o = (if quantity <=? 0 then 1 else quantity).
Proof.
  exists (Order.init order_type ticker quantity price). simpl. split_and!; try done.
  - rewrite lookup_app_r by done. by rewrite Nat.sub_diag.
  - lia.
  - destruct (Z.leb_spec quantity 0); lia.
Qed.

(** C5 as amended.  [get_order_list] returns every node reachable from the
    head, in head-to-tail order, whatever its remaining quantity; it computes
    a list from the state and returns no new state. *)
Theorem get_order_list_all_linked st l fuel :
  chain (OrderBook.heap st) (OrderBook.head st) l → (length l < fuel)%nat →
  OrderBook.get_order_list fuel st = Some l.
Proof. apply get_order_list_from_chain. Qed.

(** X18.  A run of [match_order] on a finite book leaves the type, ticker
    and price of every order alone and changes no quantity but those of the
    incoming order and of the selected best match, which had positive
    quantity.  The chain afterwards is a subsequence of the chain before;
    the incoming order, if linked, stays linked, and so does every order of
    positive quantity other than the best match.  [get_order_list] returns
    the chain as it is, orders of quantity 0 included, while [display] shows
    the rows of positive quantity only. *)
Theorem match_order_frame fuel st i thread_id l inc :
  chain (OrderBook.heap st) (OrderBook.head st) l → (length l < fuel)%nat →
  OrderBook.heap st !! i = Some inc →
  ∃ r st' l' best bp,
    OrderBook.match_order fuel st i thread_id = Some (r, st') ∧
    OrderBook.find_best fuel (OrderBook.heap st) inc None None None (OrderBook.head st)
      = Some (best, bp) ∧
    (∀ b bo, best = Some b → OrderBook.heap st !! b = Some bo → 0 < Order.quantity bo) ∧
    (∀ a o, OrderBook.heap st !! a = Some o →
       ∃ o', OrderBook.heap st' !! a = Some o' ∧
             Order.type o' = Order.type o ∧ Order.ticker o' = Order.ticker o ∧
             Order.price o' = Order.price o ∧
             (a ≠ i → best ≠ Some a → Order.quantity o' = Order.quantity o)) ∧
    OrderBook.get_order_list fuel st = Some l ∧
    OrderBook.get_order_list fuel st' = Some l' ∧
    OrderBook.display_rows fuel st' = Some (open_rows (OrderBook.heap st') l') ∧
    l' `sublist_of` l ∧
    (i ∈ l → i ∈ l') ∧
    (∀ a o, a ∈ l → OrderBook.heap st !! a = Some o → 0 < Order.quantity o →
            best ≠ Some a → a ∈ l').
Proof.
  intros Hc Hfuel Hinc.
  pose proof (get_order_list_from_chain _ _ _ _ Hc Hfuel) as Hgl.
  pose proof (display_from_chain _ _ _ _ Hc Hfuel) as Hdl.
  destruct (match_order_outcome fuel st i thread_id l inc Hc Hfuel Hinc)
    as (prev & best & bp & Hfb & Hinv & Hres).
  assert (∀ b bo, best = Some b → OrderBook.heap st !! b = Some bo →
                  0 < Order.quantity bo) as Hopen.
  { intros b bo -> Hb. destruct Hinv as [_ (_ & _ & bo' & _ & Hb' & ? & _)].
    rewrite Hb in Hb'. by injection Hb' as <-. }
  assert (OrderBook.match_order fuel st i thread_id = Some (false, st) →
          ∃ r st' l' best0 bp0,
            OrderBook.match_order fuel st i thread_id = Some (r, st') ∧
            Some (best, bp) = Some (best0, bp0) ∧
            (∀ b bo, best0 = Some b → OrderBook.heap st !! b = Some bo →
                     0 < Order.quantity bo) ∧
            (∀ a o, OrderBook.heap st !! a = Some o →
               ∃ o', OrderBook.heap st' !! a = Some o' ∧
                     Order.type o' = Order.type o ∧ Order.ticker o' = Order.ticker o ∧
                     Order.price o' = Order.price o ∧
                     (a ≠ i → best0 ≠ Some a → Order.quantity o' = Order.quantity o)) ∧
            OrderBook.get_order_list fuel st = Some l ∧
            OrderBook.get_order_list fuel st' = Some l' ∧
            OrderBook.display_rows fuel st' = Some (open_rows (OrderBook.heap st') l') ∧
            l' `sublist_of` l ∧ (i ∈ l → i ∈ l') ∧
            (∀ a o, a ∈ l → OrderBook.heap st !! a = Some o → 0 < Order.quantity o →
                    best0 ≠ Some a → a ∈ l')) as Hsame.
  { intros Hm. exists false, st, l, best, bp. split_and!; try done.
    intros a o Ha. exists o. by split_and!. }
  rewrite Hfb.
  destruct best as [b|]; [|by apply Hsame].
  destruct Hres as (bo & Hb & Hres).
  destruct (decide _) as [Hz|Hz]; [by apply Hsame|].
  destruct Hres as (st' & l' & Hm & Hpost).
  destruct Hpost as (_ & _ & Hframe & Hc' & Hsub & Hi & Hkept & _).
  pose proof (sublist_length _ _ Hsub) as Hlen.
  exists true, st', l', (Some b), bp. split_and!; try done.
  - intros a o Ha. destruct (Hframe a o Ha) as (o' & Ho' & ? & ? & ? & Hq).
    exists o'. split_and!; try done. intros Hai Hab.
    rewrite decide_False in Hq; [lia|]. intros [?|?]; congruence.
  - apply get_order_list_from_chain; [done|lia].
  - apply display_from_chain; [done|lia].
  - intros a o Ha Hao Hq Hab. destruct (Hkept a Ha) as [?|[->|Hcl]]; try done.
    unfold is_open in Hcl. rewrite Hao in Hcl.
    apply negb_false_iff, Z.leb_le in Hcl. lia.
Qed.

Lemma find_best_selects_witness :
  (∀ o, OrderBook.eligible (Order.mk "BUY" 1 5 10 (Some 1%nat)) o = true
        ↔ crossing (Order.mk "BUY" 1 5 10 (Some 1%nat)) o) ∧
  ∃ best bp,
    OrderBook.find_best 4 (OrderBook.heap Scenario.tie_book)
      (Order.mk "BUY" 1 5 10 (Some 1%nat)) None None None (Some 2%nat) = Some (best, bp) ∧
    match best with
    | None =>
        ∀ a o, a ∈ [2; 1; 0]%nat → OrderBook.heap Scenario.tie_book !! a = Some o →
               0 < Order.quantity o → ¬ crossing (Order.mk "BUY" 1 5 10 (Some 1%nat)) o
    | Some b =>
        ∃ pre post bo,
          [2; 1; 0]%nat = pre ++ b :: post ∧
          OrderBook.heap Scenario.tie_book !! b = Some bo ∧
          0 < Order.quantity bo ∧ crossing (Order.mk "BUY" 1 5 10 (Some 1%nat)) bo ∧
          (∀ a o, a ∈ pre → OrderBook.heap Scenario.tie_book !! a = Some o →
                  0 < Order.quantity o →
                  crossing (Order.mk "BUY" 1 5 10 (Some 1%nat)) o →
                  beats (Order.mk "BUY" 1 5 10 (Some 1%nat)) bo o) ∧
          (∀ a o, a ∈ post → OrderBook.heap Scenario.tie_book !! a = Some o →
                  0 < Order.quantity o →
                  crossing (Order.mk "BUY" 1 5 10 (Some 1%nat)) o →
                  as_good (Order.mk "BUY" 1 5 10 (Some 1%nat)) bo o)
    end.
Proof.
  apply (find_best_selects (OrderBook.heap Scenario.tie_book)
           (Order.mk "BUY" 1 5 10 (Some 1%nat)) (Some 2%nat) [2; 1; 0]%nat 4).
  - chain_by_computation.
  - simpl. lia.
Defined.

(** The tie-break on [Scenario.tie_book]: the BUY at 10 selects the SELL
    scanned first, object 1, inserted last; its returned predecessor is the
    BUY itself. *)
Example tie_break_newest_first :
  OrderBook.find_best 4 (OrderBook.heap Scenario.tie_book)
    (Order.mk "BUY" 1 5 10 (Some 1%nat)) None None None
    (OrderBook.head Scenario.tie_book) = Some (Some 1%nat, Some 2%nat).
Proof. reflexivity. Qed.

(** Extremum selection: with SELLs at 10, 7 and 9 against a BUY at 12 the
    match has price 7. *)
Example extremum_selection :
  ∃ st, Scenario.submit_all OrderBook.init
          [("SELL", 1, 1, 10); ("SELL", 1, 1, 7); ("SELL", 1, 1, 9)] = Some st ∧
        OrderBook.find_best 4 (OrderBook.heap st) (Order.init "BUY" 1 1 12)
          None None None (OrderBook.head st) = Some (Some 1%nat, Some 2%nat) ∧
        Order.price <$> OrderBook.heap st !! 1%nat = Some 7.
Proof. eexists. split; [reflexivity|]. split; reflexivity. Qed.

Lemma trade_conserves_quantity_witness :
  OrderBook.match_order 4 Scenario.tie_book 2 0 = Some (true, Scenario.tie_book_matched) ∧
  ∃ b bp inc bo inc' bo',
    OrderBook.heap Scenario.tie_book !! 2%nat = Some inc ∧
    OrderBook.heap Scenario.tie_book !! b = Some bo ∧
    OrderBook.find_best 4 (OrderBook.heap Scenario.tie_book) inc None None None
      (OrderBook.head Scenario.tie_book) = Some (Some b, bp) ∧
    OrderBook.heap Scenario.tie_book_matched !! 2%nat = Some inc' ∧
    OrderBook.heap Scenario.tie_book_matched !! b = Some bo' ∧
    let traded := Z.min (Order.quantity inc) (Order.quantity bo) in
    OrderBook.out Scenario.tie_book_matched =
      OrderBook.out Scenario.tie_book
        ++ [MatchFound 0 (Order.str bo) traded (Order.price bo)] ∧
    Order.quantity inc' + traded = Order.quantity inc ∧
    Order.quantity bo' + traded = Order.quantity bo ∧
    crossing inc bo ∧
    (Order.type inc = OrderType.BUY → Order.price bo <= Order.price inc) ∧
    (Order.type inc = OrderType.SELL → Order.price bo >= Order.price inc).
Proof.
  split; [reflexivity|].
  apply (trade_conserves_quantity 4 Scenario.tie_book 2%nat 0 Scenario.tie_book_matched).
  reflexivity.
Defined.

Lemma match_order_never_raises_witness :
  ∃ r st' best bp,
    OrderBook.match_order 4 Scenario.tie_book 2 0 = Some (r, st') ∧
    OrderBook.find_best 4 (OrderBook.heap Scenario.tie_book)
      (Order.mk "BUY" 1 5 10 (Some 1%nat)) None None None
      (OrderBook.head Scenario.tie_book) = Some (best, bp) ∧
    (r = false → st' = Scenario.tie_book) ∧
    (best = None → r = false) ∧
    ((∀ a o, a ∈ [2; 1; 0]%nat → OrderBook.heap Scenario.tie_book !! a = Some o →
             0 < Order.quantity o → ¬ crossing (Order.mk "BUY" 1 5 10 (Some 1%nat)) o) →
     best = None) ∧
    (∀ b bo, best = Some b → OrderBook.heap Scenario.tie_book !! b = Some bo →
             Z.min (Order.quantity (Order.mk "BUY" 1 5 10 (Some 1%nat)))
                   (Order.quantity bo) = 0 → r = false).
Proof.
  apply (match_order_never_raises 4 Scenario.tie_book 2%nat 0 [2; 1; 0]%nat
           (Order.mk "BUY" 1 5 10 (Some 1%nat))).
  - chain_by_computation.
  - simpl. lia.
  - reflexivity.
Defined.

(** A zero-quantity trade: [match_order] for the filled BUY of the end-to-end
    scenario finds the SELL, computes a traded quantity of 0 and gives up. *)
Example zero_trade_returns_false :
  OrderBook.find_best 3 (OrderBook.heap Scenario.end_to_end_book)
    (Order.mk "BUY" 1 0 105 (Some 0%nat)) None None None
    (OrderBook.head Scenario.end_to_end_book) = Some (Some 0%nat, None) ∧
  OrderBook.match_order 3 Scenario.end_to_end_book 1 0
    = Some (false, Scenario.end_to_end_book).
Proof. split; reflexivity. Qed.

Lemma process_orders_terminates_witness :
  ∃ n st' l',
    (∀ fuel, (n ≤ fuel)%nat →
       OrderBook.process_orders fuel Scenario.fill_chain_book 0 = Some st') ∧
    chain (OrderBook.heap st') (OrderBook.head st') l' ∧
    l' `sublist_of` [2; 1; 0]%nat ∧
    (open_interest (OrderBook.heap st')
     ≤ open_interest (OrderBook.heap Scenario.fill_chain_book))%nat ∧
    (quiescent (OrderBook.heap Scenario.fill_chain_book) [2; 1; 0]%nat →
     st' = Scenario.fill_chain_book).
Proof.
  apply (process_orders_terminates Scenario.fill_chain_book 0 [2; 1; 0]%nat).
  chain_by_computation.
Defined.

(** C4.  SELL(1,10,100), SELL(1,20,100) and BUY(1,25,100) are created and
    added in this order (objects 0, 1 and 2).  One call of [process_orders],
    with any fuel from 7 on, prints exactly two trades, 20 against the SELL
    inserted last and then 5 against the other one; the BUY ends with
    quantity 0, the later SELL with 0 and unlinked, the earlier SELL with 5. *)
Theorem partial_fill_chain thread_id k :
  ∃ st1 st2 st3 st',
    TradingEngine.submit OrderBook.init "SELL" 1 10 100 = Some (0%nat, st1) ∧
    TradingEngine.submit st1 "SELL" 1 20 100 = Some (1%nat, st2) ∧
    TradingEngine.submit st2 "BUY" 1 25 100 = Some (2%nat, st3) ∧
    OrderBook.process_orders (7 + k) st3 thread_id = Some st' ∧
    OrderBook.out st' =
      OrderBook.out st3 ++ [MatchFound thread_id ("SELL", 1, 20, 100) 20 100;
                            MatchFound thread_id ("SELL", 1, 10, 100) 5 100] ∧
    Order.quantity <$> OrderBook.heap st' !! 2%nat = Some 0 ∧
    Order.quantity <$> OrderBook.heap st' !! 1%nat = Some 0 ∧
    Order.quantity <$> OrderBook.heap st' !! 0%nat = Some 5 ∧
    OrderBook.get_order_list 3 st' = Some [2; 0]%nat.
Proof.
  eexists _, _, _, _. split_and!.
  - reflexivity.
  - reflexivity.
  - reflexivity.
  - unfold OrderBook.process_orders.
    apply (process_orders_from_mono thread_id 7); [lia|]. vm_compute. reflexivity.
  - reflexivity.
  - reflexivity.
  - reflexivity.
  - reflexivity.
  - reflexivity.
Qed.

(** The six fuel units below 7 do not suffice for that sweep. *)
Example six_fuel_units_fall_short :
  OrderBook.process_orders 6 Scenario.fill_chain_book 0 = None.
Proof. reflexivity. Qed.

(** C5 as stated fails on the end-to-end scenario: the BUY is filled, stays
    linked at the head and is returned by [get_order_list]. *)
Lemma snapshot_keeps_filled_order : ¬ snapshot_only_open 3 Scenario.end_to_end_book.
Proof.
  intros H.
  pose proof (H [1; 0]%nat eq_refl 1%nat (Order.mk "BUY" 1 0 105 (Some 0%nat))
                ltac:(left) eq_refl) as Hq.
  simpl in Hq. lia.
Qed.

(** What the end-to-end scenario leaves behind: one trade of 30 at 100, the
    SELL with 20, the BUY with 0 and still first in the list; [display]
    shows the SELL only. *)
Example end_to_end :
  OrderBook.out Scenario.end_to_end_book =
    [OrderAdded ("SELL", 1, 50, 100); OrderAdded ("BUY", 1, 30, 105);
     MatchFound 0 ("SELL", 1, 50, 100) 30 100] ∧
  OrderBook.get_order_list 3 Scenario.end_to_end_book = Some [1; 0]%nat ∧
  Order.str <$> OrderBook.heap Scenario.end_to_end_book !! 1%nat
    = Some ("BUY", 1, 0, 105) ∧
  OrderBook.display_rows 3 Scenario.end_to_end_book = Some [("SELL", 1, 20, 100)].
Proof. split_and!; reflexivity. Qed.

Lemma get_order_list_all_linked_witness :
  OrderBook.get_order_list 3 Scenario.end_to_end_book = Some [1; 0]%nat.
Proof.
  apply (get_order_list_all_linked Scenario.end_to_end_book [1; 0]%nat 3).
  - chain_by_computation.
  - simpl. lia.
Defined.

(** On [Scenario.stale_middle_book] a node other than the selected best
    match leaves the chain in a run of [match_order]. *)
Lemma relink_drops_stale_node :
  ¬ unlinks_only_candidate 4 Scenario.stale_middle_book 3 0.
Proof.
  intros H.
  assert (Some 0%nat = Some 2%nat) as Hbad; [|discriminate].
  eapply (H (Order.mk "BUY" 1 5 100 (Some 2%nat)) (Some 0%nat) (Some 3%nat)
            true _ [3; 2; 0]%nat [3]%nat); try reflexivity.
  - right. left.
  - intros Hin. apply list_elem_of_singleton in Hin. discriminate.
Qed.

(** C10 on [Scenario.stale_middle_book] (chain 3, 2, 0 with object 2
    filled): [match_order] for the new BUY, object 3, selects the SELL,
    object 0, with object 3 as returned predecessor, trades 5 and fills it.
    The relink [best_match_prev.next = best_match.next] then takes object 2,
    which is neither the incoming order nor the candidate, out of the chain
    together with object 0: only object 3 is left. *)
Theorem stale_node_dropped_with_candidate :
  OrderBook.get_order_list 4 Scenario.stale_middle_book = Some [3; 2; 0]%nat ∧
  OrderBook.find_best 4 (OrderBook.heap Scenario.stale_middle_book)
    (Order.mk "BUY" 1 5 100 (Some 2%nat)) None None None
    (OrderBook.head Scenario.stale_middle_book) = Some (Some 0%nat, Some 3%nat) ∧
  OrderBook.match_order 4 Scenario.stale_middle_book 3 0
    = Some (true, Swept.stale_middle_book_matched) ∧
  Order.quantity <$> OrderBook.heap Swept.stale_middle_book_matched !! 0%nat = Some 0 ∧
  Order.next <$> OrderBook.heap Scenario.stale_middle_book !! 2%nat = Some (Some 0%nat) ∧
  OrderBook.get_order_list 4 Swept.stale_middle_book_matched = Some [3]%nat.
Proof. split_and!; reflexivity. Qed.

Lemma match_order_frame_witness :
  ∃ r st' l' best bp,
    OrderBook.match_order 4 Scenario.stale_middle_book 3 0 = Some (r, st') ∧
    OrderBook.find_best 4 (OrderBook.heap Scenario.stale_middle_book)
      (Order.mk "BUY" 1 5 100 (Some 2%nat)) None None None
      (OrderBook.head Scenario.stale_middle_book) = Some (best, bp) ∧
    (∀ b bo, best = Some b → OrderBook.heap Scenario.stale_middle_book !! b = Some bo →
             0 < Order.quantity bo) ∧
    (∀ a o, OrderBook.heap Scenario.stale_middle_book !! a = Some o →
       ∃ o', OrderBook.heap st' !! a = Some o' ∧
             Order.type o' = Order.type o ∧ Order.ticker o' = Order.ticker o ∧
             Order.price o' = Order.price o ∧
             (a ≠ 3%nat → best ≠ Some a → Order.quantity o' = Order.quantity o)) ∧
    OrderBook.get_order_list 4 Scenario.stale_middle_book = Some [3; 2; 0]%nat ∧
    OrderBook.get_order_list 4 st' = Some l' ∧
    OrderBook.display_rows 4 st' = Some (open_rows (OrderBook.heap st') l') ∧
    l' `sublist_of` [3; 2; 0]%nat ∧
    (3%nat ∈ [3; 2; 0]%nat → 3%nat ∈ l') ∧
    (∀ a o, a ∈ [3; 2; 0]%nat →
            OrderBook.heap Scenario.stale_middle_book !! a = Some o →
            0 < Order.quantity o → best ≠ Some a → a ∈ l').
Proof.
  apply (match_order_frame 4 Scenario.stale_middle_book 3%nat 0 [3; 2; 0]%nat
           (Order.mk "BUY" 1 5 100 (Some 2%nat))).
  - chain_by_computation.
  - simpl. lia.
  - reflexivity.
Defined.

(** The books of [Scenario] are what the calls named there produce. *)
Example scenario_books_built :
  Scenario.submit_all OrderBook.init
    [("SELL", 1, 5, 8); ("SELL", 1, 5, 8); ("BUY", 1, 5, 10)] = Some Scenario.tie_book ∧
  Scenario.submit_all OrderBook.init
    [("SELL", 1, 10, 100); ("SELL", 1, 20, 100); ("BUY", 1, 25, 100)]
    = Some Scenario.fill_chain_book ∧
  Scenario.place_all 8 OrderBook.init 0 [("SELL", 1, 50, 100); ("BUY", 1, 30, 105)]
    = Some Scenario.end_to_end_book ∧
  (st ← Scenario.place_all 8 OrderBook.init 0
          [("SELL", 1, 5, 100); ("SELL", 1, 5, 90); ("BUY", 1, 5, 100)];
   Scenario.submit_all st [("BUY", 1, 5, 100)]) = Some Scenario.stale_middle_book ∧
  (st ← Scenario.submit_all OrderBook.init
          [("BUY", 1, 10, 100); ("SELL", 1, 10, 100); ("SELL", 1, 5, 90);
           ("BUY", 1, 5, 100)];
   OrderBook.match_order 5 st 3 0) = Some (true, Scenario.stale_head_book).
Proof. split_and!; reflexivity. Qed.

(** C3 on [Scenario.stale_head_book] (chain 3, 1, 0 with object 3 filled):
    [match_order] for the BUY, object 0, trades 10 against the SELL, object
    1, whose quantity reaches 0.  The search returned no predecessor, the
    compare-and-swap on the head expected object 1 and found object 3, and
    object 1 is still in the chain afterwards. *)
Theorem filled_candidate_stays_linked :
  OrderBook.get_order_list 4 Scenario.stale_head_book = Some [3; 1; 0]%nat ∧
  OrderBook.find_best 4 (OrderBook.heap Scenario.stale_head_book)
    (Order.mk "BUY" 1 10 100 None) None None None
    (OrderBook.head Scenario.stale_head_book) = Some (Some 1%nat, None) ∧
  OrderBook.match_order 4 Scenario.stale_head_book 0 0
    = Some (true, Scenario.stale_head_book_matched) ∧
  Order.quantity <$> OrderBook.heap Scenario.stale_head_book !! 1%nat = Some 10 ∧
  Order.quantity <$> OrderBook.heap Scenario.stale_head_book_matched !! 1%nat = Some 0 ∧
  OrderBook.get_order_list 4 Scenario.stale_head_book_matched = Some [3; 1; 0]%nat.
Proof. split_and!; reflexivity. Qed.

(** C6 on the same two books.  In [Scenario.stale_head_book] the search
    returns no predecessor for object 1 although the head is object 3 and
    object 3 links to object 1.  In [Scenario.stale_middle_book] it returns
    object 3 as predecessor of object 0 although object 2 links to object 0
    and object 3 links to object 2. *)
Theorem returned_predecessor_skips_filled_nodes :
  (OrderBook.find_best 4 (OrderBook.heap Scenario.stale_head_book)
     (Order.mk "BUY" 1 10 100 None) None None None
     (OrderBook.head Scenario.stale_head_book) = Some (Some 1%nat, None) ∧
   OrderBook.head Scenario.stale_head_book = Some 3%nat ∧
   Order.next <$> OrderBook.heap Scenario.stale_head_book !! 3%nat = Some (Some 1%nat)) ∧
  (OrderBook.find_best 4 (OrderBook.heap Scenario.stale_middle_book)
     (Order.mk "BUY" 1 5 100 (Some 2%nat)) None None None
     (OrderBook.head Scenario.stale_middle_book) = Some (Some 0%nat, Some 3%nat) ∧
   Order.next <$> OrderBook.heap Scenario.stale_middle_book !! 2%nat = Some (Some 0%nat) ∧
   Order.next <$> OrderBook.heap Scenario.stale_middle_book !! 3%nat = Some (Some 2%nat)).
Proof. split_and!; reflexivity. Qed.

(** * Further properties of the code *)

(** ** Runs that returned, with any fuel *)

(** [match_order_outcome] for a run that returned, whatever its fuel. *)
Lemma match_order_outcome_ret fuel st i thread_id l inc r st' :
  chain (OrderBook.heap st) (OrderBook.head st) l →
  OrderBook.heap st !! i = Some inc →
  OrderBook.match_order fuel st i thread_id = Some (r, st') →
  ∃ prev best bp,
    OrderBook.find_best fuel (OrderBook.heap st) inc None None None (OrderBook.head st)
      = Some (best, bp) ∧
    scan_inv (OrderBook.heap st) inc l prev best bp ∧
    match best with
    | None => r = false ∧ st' = st
    | Some b =>
        ∃ bo, OrderBook.heap st !! b = Some bo ∧
          if decide (Z.min (Order.quantity inc) (Order.quantity bo) = 0) then
            r = false ∧ st' = st
          else
            r = true ∧ ∃ l', trade_post st i thread_id l inc b bo bp st' l'
    end.
Proof.
  intros Hc Hinc Hm.
  set (big := (fuel `max` S (length l))%nat).
  assert (fuel ≤ big)%nat as Hle by lia.
  pose proof (match_order_mono _ _ _ _ _ _ Hle Hm) as Hbig.
  destruct (match_order_outcome big st i thread_id l inc Hc ltac:(lia) Hinc)
    as (prev & best & bp & Hfb & Hinv & Hres).
  assert (OrderBook.find_best fuel (OrderBook.heap st) inc None None None
            (OrderBook.head st) = Some (best, bp)) as Hfb'.
  { unfold OrderBook.match_order in Hm. rewrite Hinc in Hm. simpl in Hm.
    destruct (OrderBook.find_best fuel _ _ _ _ _ _) as [x|] eqn:Hx; [|done].
    rewrite (find_best_mono _ _ _ _ _ _ _ _ _ Hle Hx) in Hfb. by injection Hfb as ->. }
  exists prev, best, bp. split_and!; try done.
  destruct best as [b|].
  - destruct Hres as (bo & Hb & Hres). exists bo. split; [done|].
    destruct (decide _).
    + rewrite Hbig in Hres. by injection Hres as <- <-.
    + destruct Hres as (st'' & l' & Hm' & Hpost). rewrite Hbig in Hm'.
      injection Hm' as <- <-. eauto.
  - rewrite Hbig in Hres. by injection Hres as <- <-.
Qed.

(** ** The book after a sweep *)

Lemma settled_nil h l : settled h l [].
Proof. intros a b oa ob Ha. by apply elem_of_nil in Ha. Qed.

Lemma settled_snoc h l l0 c :
  settled h l l0 →
  (∀ oc, h !! c = Some oc → 0 < Order.quantity oc →
         ∀ b ob, b ∈ l → h !! b = Some ob → 0 < Order.quantity ob → ¬ crossing oc ob) →
  settled h l (l0 ++ [c]).
Proof.
  intros Hs Hc a b oa ob [Ha|Ha]%elem_of_app Hb Hoa Hob Hqa Hqb.
  - by eapply Hs.
  - apply list_elem_of_singleton in Ha as ->. by eapply Hc.
Qed.

(** The sweep stops only when the scan pointer has passed every node
    without a trade: then no two open orders of the chain cross. *)
Lemma process_orders_from_uncrossed thread_id fuel :
  ∀ st cur l l0 lc st',
    chain (OrderBook.heap st) (OrderBook.head st) l → l = l0 ++ lc →
    chain (OrderBook.heap st) cur lc →
    settled (OrderBook.heap st) l l0 →
    OrderBook.process_orders_from fuel st thread_id cur = Some st' →
    ∃ l', chain (OrderBook.heap st') (OrderBook.head st') l' ∧
          l' `sublist_of` l ∧ quiescent (OrderBook.heap st') l'.
Proof.
  induction fuel as [|fuel IH]; intros st cur l l0 lc st' Hc Hl Hcur Hs; [done|].
  destruct lc as [|c lc].
  { simpl in Hcur. subst cur. simpl. intros [= <-]. exists l. split_and!; try done.
    rewrite app_nil_r in Hl. subst l0. exact Hs. }
  destruct Hcur as [-> (o & Ho & Hcur)]. simpl. rewrite Ho. simpl.
  assert (l = (l0 ++ [c]) ++ lc) as Hl' by (by rewrite <- app_assoc).
  destruct (0 <? Order.quantity o) eqn:Hq.
  - apply Z.ltb_lt in Hq.
    destruct (OrderBook.match_order fuel st c thread_id) as [[m st1]|] eqn:Hm; [|done].
    simpl.
    destruct (match_order_outcome_ret _ _ _ _ _ _ _ _ Hc Ho Hm)
      as (prev & best & bp & _ & Hinv & Hres).
    destruct best as [b|].
    + destruct Hres as (bo & Hb & Hres).
      destruct Hinv as [_ (pre & post & bo' & Hlb & Hb' & Hqb & Hx & _)].
      rewrite Hb in Hb'. injection Hb' as <-.
      destruct (decide _) as [Hz|Hz]; [lia|].
      destruct Hres as (-> & l1 & Hpost).
      pose proof Hpost as (_ & _ & _ & Hc1 & Hsub & _).
      intros Hp.
      destruct (IH st1 (OrderBook.head st1) l1 [] l1 st' Hc1 eq_refl Hc1
                  (settled_nil _ _) Hp) as (l' & Hc' & Hsub' & Hqu).
      exists l'. split_and!; [done|by etrans|done].
    + destruct Hres as (-> & ->). rewrite Ho. simpl.
      destruct Hinv as [_ [_ Hnone]].
      apply (IH st (Order.next o) l (l0 ++ [c]) lc); try done.
      apply settled_snoc; [done|]. intros oc Hoc _ b ob Hb Hob Hqb.
      rewrite Ho in Hoc. injection Hoc as <-. by eapply Hnone.
  - apply Z.ltb_ge in Hq.
    apply (IH st (Order.next o) l (l0 ++ [c]) lc); try done.
    apply settled_snoc; [done|]. intros oc Hoc Hqc.
    rewrite Ho in Hoc. injection Hoc as <-. lia.
Qed.

(** On an uncrossed book a sweep that returns, returns the book as it is. *)
Lemma process_orders_quiescent_ret fuel st thread_id l st' :
  chain (OrderBook.heap st) (OrderBook.head st) l →
  quiescent (OrderBook.heap st) l →
  OrderBook.process_orders fuel st thread_id = Some st' → st' = st.
Proof.
  intros Hc Hq Hp.
  set (big := (fuel `max` (open_interest (OrderBook.heap st) * (length l + 2)
                           + length l + length l + 2))%nat).
  destruct (process_orders_from_total thread_id big
              st (OrderBook.head st) l [] l Hc eq_refl Hc ltac:(lia))
    as (st'' & l'' & Hp'' & _ & _ & Hsame).
  assert (fuel ≤ big)%nat as Hle by lia.
  unfold OrderBook.process_orders in Hp.
  rewrite (process_orders_from_mono _ _ _ _ _ _ Hle Hp) in Hp''.
  injection Hp'' as ->. by apply Hsame.
Qed.

(** In an uncrossed book every open BUY is priced below every open SELL of
    its ticker. *)
Lemma quiescent_bid_below_ask h l b s ob os :
  quiescent h l → b ∈ l → s ∈ l → h !! b = Some ob → h !! s = Some os →
  0 < Order.quantity ob → 0 < Order.quantity os →
  Order.type ob = OrderType.BUY → Order.type os = OrderType.SELL →
  Order.ticker ob = Order.ticker os →
  Order.price ob < Order.price os.
Proof.
  intros Hq Hb Hs Hob Hos Hqb Hqs Htb Hts Htk.
  destruct (Z.lt_ge_cases (Order.price ob) (Order.price os)) as [|Hge]; [done|].
  exfalso. apply (Hq b s ob os Hb Hs Hob Hos Hqb Hqs).
  split; [done|]. left. by split_and!.
Qed.

(** X1.  Whenever [process_orders] returns on a finite book, the book it
    leaves is again a finite chain, made of nodes of the old chain in their
    old order, and it is uncrossed: no two linked orders of positive
    quantity can trade with each other, so every linked BUY of positive
    quantity is priced strictly below every linked SELL of positive quantity
    for the same ticker. *)
Theorem sweep_leaves_book_uncrossed fuel st thread_id l st' :
  chain (OrderBook.heap st) (OrderBook.head st) l →
  OrderBook.process_orders fuel st thread_id = Some st' →
  ∃ l', chain (OrderBook.heap st') (OrderBook.head st') l' ∧
        l' `sublist_of` l ∧ quiescent (OrderBook.heap st') l' ∧
        ∀ b s ob os,
          b ∈ l' → s ∈ l' →
          OrderBook.heap st' !! b = Some ob → OrderBook.heap st' !! s = Some os →
          0 < Order.quantity ob → 0 < Order.quantity os →
          Order.type ob = OrderType.BUY → Order.type os = OrderType.SELL →
          Order.ticker ob = Order.ticker os →
          Order.price ob < Order.price os.
Proof.
  intros Hc Hp.
  destruct (process_orders_from_uncrossed thread_id fuel st (OrderBook.head st) l [] l
              st' Hc eq_refl Hc (settled_nil _ _) Hp) as (l' & Hc' & Hsub & Hq).
  exists l'. split_and!; try done.
  intros b s ob os. by apply quiescent_bid_below_ask.
Qed.

Lemma sweep_leaves_book_uncrossed_witness :
  ∃ l', chain (OrderBook.heap Swept.fill_chain_book)
          (OrderBook.head Swept.fill_chain_book) l' ∧
        l' `sublist_of` [2; 1; 0]%nat ∧
        quiescent (OrderBook.heap Swept.fill_chain_book) l' ∧
        ∀ b s ob os,
          b ∈ l' → s ∈ l' →
          OrderBook.heap Swept.fill_chain_book !! b = Some ob →
          OrderBook.heap Swept.fill_chain_book !! s = Some os →
          0 < Order.quantity ob → 0 < Order.quantity os →
          Order.type ob = OrderType.BUY → Order.type os = OrderType.SELL →
          Order.ticker ob = Order.ticker os →
          Order.price ob < Order.price os.
Proof.
  apply (sweep_leaves_book_uncrossed 7 Scenario.fill_chain_book 0 [2; 1; 0]%nat
           Swept.fill_chain_book).
  - chain_by_computation.
  - reflexivity.
Defined.

(** X2.  A second sweep finds nothing to do: once [process_orders] has
    returned on a finite book, any later call of it, by any thread and with
    any fuel that lets it return, gives back the very same state, and such
    fuel exists. *)
Theorem second_sweep_changes_nothing fuel st thread_id l st' thread_id' :
  chain (OrderBook.heap st) (OrderBook.head st) l →
  OrderBook.process_orders fuel st thread_id = Some st' →
  (∀ fuel' st'', OrderBook.process_orders fuel' st' thread_id' = Some st'' → st'' = st') ∧
  ∃ n, ∀ fuel', (n ≤ fuel')%nat →
                OrderBook.process_orders fuel' st' thread_id' = Some st'.
Proof.
  intros Hc Hp.
  destruct (process_orders_from_uncrossed thread_id fuel st (OrderBook.head st)
              l [] l st' Hc eq_refl Hc (settled_nil _ _) Hp) as (l' & Hc' & _ & Hq).
  split.
  - intros fuel' st'' Hp'. by eapply process_orders_quiescent_ret.
  - destruct (process_orders_from_total thread_id'
                (open_interest (OrderBook.heap st') * (length l' + 2)
                 + length l' + length l' + 2)%nat
                st' (OrderBook.head st') l' [] l' Hc' eq_refl Hc' ltac:(lia))
      as (st'' & l'' & Hp'' & _ & _ & Hsame).
    rewrite (Hsame Hq) in Hp''.
    eexists. intros fuel' Hle. by eapply process_orders_from_mono.
Qed.

Lemma second_sweep_changes_nothing_witness :
  (∀ fuel' st'', OrderBook.process_orders fuel' Swept.fill_chain_book 5 = Some st'' →
                 st'' = Swept.fill_chain_book) ∧
  ∃ n, ∀ fuel', (n ≤ fuel')%nat →
                OrderBook.process_orders fuel' Swept.fill_chain_book 5
                = Some Swept.fill_chain_book.
Proof.
  apply (second_sweep_changes_nothing 7 Scenario.fill_chain_book 0 [2; 1; 0]%nat
           Swept.fill_chain_book 5).
  - chain_by_computation.
  - reflexivity.
Defined.

(** ** Volume on the two sides of the book *)

Lemma side_quantity_alter side f a (h : list Order.t) o :
  h !! a = Some o →
  side_quantity side (alter f a h)
  = side_quantity side h - on_side side o + on_side side (f o).
Proof.
  revert a. induction h as [|x h IH]; intros [|a] Ha; try done.
  - simpl in Ha. injection Ha as ->. unfold side_quantity. simpl. lia.
  - simpl in Ha. specialize (IH a Ha). unfold side_quantity in *. simpl.
    change (list_alter f a h) with (alter f a h). lia.
Qed.

Lemma side_quantity_ext side (h h' : list Order.t) :
  length h' = length h →
  (∀ a o o', h !! a = Some o → h' !! a = Some o' → on_side side o' = on_side side o) →
  side_quantity side h' = side_quantity side h.
Proof.
  revert h'. induction h as [|x h IH]; intros [|x' h'] Hlen Hext; try done.
  pose proof (Hext 0%nat x x' eq_refl eq_refl) as H0.
  assert (side_quantity side h' = side_quantity side h) as Hrest.
  { apply IH; [simpl in Hlen; lia|]. intros a. apply (Hext (S a)). }
  unfold side_quantity in *. simpl. lia.
Qed.

Lemma on_side_traded_from side d o o' :
  traded_from d o o' →
  on_side side o' = on_side side o - (if String.eqb (Order.type o) side then d else 0).
Proof.
  intros (Ht & _ & _ & Hq). unfold on_side. rewrite Ht, Hq.
  destruct (String.eqb _ _); lia.
Qed.

(** A trade takes the traded quantity from the BUY side and from the SELL
    side, and nothing from any other type. *)
Lemma match_order_conserves fuel st i thread_id st' :
  OrderBook.match_order fuel st i thread_id = Some (true, st') →
  ∃ inc b bo,
    OrderBook.heap st !! i = Some inc ∧ OrderBook.heap st !! b = Some bo ∧
    0 < Order.quantity bo ∧
    OrderBook.out st' =
      OrderBook.out st ++
        [MatchFound thread_id (Order.str bo)
           (Z.min (Order.quantity inc) (Order.quantity bo)) (Order.price bo)] ∧
    ∀ side,
      side_quantity side (OrderBook.heap st')
      = side_quantity side (OrderBook.heap st)
        - (if String.eqb side OrderType.BUY || String.eqb side OrderType.SELL
           then Z.min (Order.quantity inc) (Order.quantity bo) else 0).
Proof.
  intros Hm.
  destruct (match_order_true_inv _ _ _ _ _ Hm)
    as (b & bp & inc & bo & Hinc & Hb & _ & Hib & Hqb & Hx & _ & Hout & Hlen & Hframe).
  exists inc, b, bo. split_and!; try done.
  intros side.
  set (t := Z.min (Order.quantity inc) (Order.quantity bo)) in *.
  set (h := OrderBook.heap st) in *.
  assert (side_quantity side (OrderBook.heap st')
          = side_quantity side (OrderBook.sub_quantity b t (OrderBook.sub_quantity i t h)))
    as ->.
  { apply side_quantity_ext.
    - unfold OrderBook.sub_quantity. by rewrite !length_alter.
    - intros a o2 o' Ha2 Ha'.
      assert (is_Some (h !! a)) as [o Ha].
      { apply lookup_lt_is_Some. apply lookup_lt_Some in Ha'. lia. }
      destruct (Hframe a o Ha) as (o'' & Ha'' & Hfr).
      rewrite Ha' in Ha''. injection Ha'' as <-.
      destruct (trade_frame h i b t a o Hib Ha) as (o2' & Ha2' & Hfr2 & _).
      rewrite Ha2 in Ha2'. injection Ha2' as <-.
      rewrite (on_side_traded_from _ _ _ _ Hfr), (on_side_traded_from _ _ _ _ Hfr2).
      done. }
  unfold OrderBook.sub_quantity.
  assert (alter (λ o, Order.set_quantity (Order.quantity o - t) o) i h !! b = Some bo)
    as Hb1 by by rewrite list_lookup_alter_ne.
  rewrite (side_quantity_alter _ _ _ _ _ Hb1), (side_quantity_alter _ _ _ _ _ Hinc).
  unfold on_side. simpl.
  pose proof BUY_neq_SELL.
  assert (String.eqb side OrderType.BUY && String.eqb side OrderType.SELL = false)
    as Hboth.
  { apply andb_false_iff.
    destruct (String.eqb_spec side OrderType.BUY) as [->|]; [by right|by left]. }
  destruct Hx as [_ [(Hti & Htb & _)|(Hti & Htb & _)]]; rewrite Hti, Htb;
    rewrite (String.eqb_sym OrderType.BUY side), (String.eqb_sym OrderType.SELL side);
    destruct (String.eqb side OrderType.BUY), (String.eqb side OrderType.SELL);
    try done; simpl; lia.
Qed.

Lemma process_orders_from_conserves thread_id fuel :
  ∀ st cur st',
    OrderBook.process_orders_from fuel st thread_id cur = Some st' →
    ∃ evs,
      OrderBook.out st' = OrderBook.out st ++ evs ∧
      Forall (trade_line thread_id) evs ∧
      ∀ side,
        side_quantity side (OrderBook.heap st')
        = side_quantity side (OrderBook.heap st)
          - (if String.eqb side OrderType.BUY || String.eqb side OrderType.SELL
             then traded_volume evs else 0).
Proof.
  induction fuel as [|fuel IH]; intros st cur st'; [done|]. simpl.
  destruct cur as [c|]; cycle 1.
  { intros [= <-]. exists []. rewrite app_nil_r. split_and!; try done.
    intros side. simpl. destruct (_ || _); lia. }
  destruct (OrderBook.heap st !! c) as [oc|] eqn:Hc; [|done]. simpl.
  destruct (0 <? Order.quantity oc) eqn:Hq; [|by apply IH].
  apply Z.ltb_lt in Hq.
  destruct (OrderBook.match_order fuel st c thread_id) as [[m st1]|] eqn:Hm; [|done].
  simpl. destruct m.
  - intros Hp. destruct (IH _ _ _ Hp) as (evs & Hout & Hall & Hside).
    destruct (match_order_conserves _ _ _ _ _ Hm)
      as (inc & b & bo & Hinc & Hb & Hqb & Hout1 & Hside1).
    rewrite Hc in Hinc. injection Hinc as <-.
    eexists (_ :: evs). split_and!.
    + rewrite Hout, Hout1, <- app_assoc. done.
    + constructor; [|done]. simpl. split; [done|lia].
    + intros side. rewrite Hside, Hside1. simpl. destruct (_ || _); lia.
  - apply match_order_false_inv in Hm as ->. rewrite Hc. simpl. by apply IH.
Qed.

(** X3.  A sweep prints nothing but trades of its own thread, each with a
    positive quantity, and it takes the same volume from both sides of the
    book: the remaining quantity of all BUY orders and that of all SELL
    orders each drop by the sum of the printed traded quantities, while
    orders of any other type keep theirs. *)
Theorem sweep_conserves_volume fuel st thread_id st' :
  OrderBook.process_orders fuel st thread_id = Some st' →
  ∃ evs,
    OrderBook.out st' = OrderBook.out st ++ evs ∧
    Forall (trade_line thread_id) evs ∧
    side_quantity OrderType.BUY (OrderBook.heap st')
      = side_quantity OrderType.BUY (OrderBook.heap st) - traded_volume evs ∧
    side_quantity OrderType.SELL (OrderBook.heap st')
      = side_quantity OrderType.SELL (OrderBook.heap st) - traded_volume evs ∧
    ∀ side, side ≠ OrderType.BUY → side ≠ OrderType.SELL →
            side_quantity side (OrderBook.heap st')
            = side_quantity side (OrderBook.heap st).
Proof.
  intros Hp.
  destruct (process_orders_from_conserves _ _ _ _ _ Hp) as (evs & Hout & Hall & Hside).
  exists evs. split_and!; [done|done|exact (Hside OrderType.BUY)
                          |exact (Hside OrderType.SELL)|].
  intros side H1 H2. rewrite (Hside side).
  apply String.eqb_neq in H1, H2. rewrite H1, H2. simpl. lia.
Qed.

Lemma sweep_conserves_volume_witness :
  ∃ evs,
    OrderBook.out Swept.fill_chain_book = OrderBook.out Scenario.fill_chain_book ++ evs ∧
    Forall (trade_line 0) evs ∧
    side_quantity OrderType.BUY (OrderBook.heap Swept.fill_chain_book)
      = side_quantity OrderType.BUY (OrderBook.heap Scenario.fill_chain_book)
        - traded_volume evs ∧
    side_quantity OrderType.SELL (OrderBook.heap Swept.fill_chain_book)
      = side_quantity OrderType.SELL (OrderBook.heap Scenario.fill_chain_book)
        - traded_volume evs ∧
    ∀ side, side ≠ OrderType.BUY → side ≠ OrderType.SELL →
            side_quantity side (OrderBook.heap Swept.fill_chain_book)
            = side_quantity side (OrderBook.heap Scenario.fill_chain_book).
Proof.
  apply (sweep_conserves_volume 7 Scenario.fill_chain_book 0 Swept.fill_chain_book).
  reflexivity.
Defined.

(** ** Orders through a sweep *)

Lemma worn_refl o : worn o o.
Proof. unfold worn. split_and!; try done; lia. Qed.

Lemma worn_trans o1 o2 o3 : worn o1 o2 → worn o2 o3 → worn o1 o3.
Proof. unfold worn. intros (? & ? & ? & ? & ? & ?) (? & ? & ? & ? & ? & ?).
  split_and!; try congruence; lia. Qed.

Lemma process_orders_from_worn thread_id fuel :
  ∀ st cur st',
    OrderBook.process_orders_from fuel st thread_id cur = Some st' →
    length (OrderBook.heap st') = length (OrderBook.heap st) ∧
    ∀ a o, OrderBook.heap st !! a = Some o →
           ∃ o', OrderBook.heap st' !! a = Some o' ∧ worn o o'.
Proof.
  induction fuel as [|fuel IH]; intros st cur st'; [done|]. simpl.
  destruct cur as [c|]; cycle 1.
  { intros [= <-]. split; [done|]. intros a o Ha. exists o. split; [done|apply worn_refl]. }
  destruct (OrderBook.heap st !! c) as [oc|] eqn:Hc; [|done]. simpl.
  destruct (0 <? Order.quantity oc) eqn:Hq; [|by apply IH].
  apply Z.ltb_lt in Hq.
  destruct (OrderBook.match_order fuel st c thread_id) as [[m st1]|] eqn:Hm; [|done].
  simpl. destruct m.
  - intros Hp. destruct (IH _ _ _ Hp) as (Hlen & Hw).
    destruct (match_order_true_inv _ _ _ _ _ Hm)
      as (b & bp & inc & bo & Hinc & Hb & _ & Hib & Hqb & _ & _ & _ & Hlen1 & Hframe).
    rewrite Hc in Hinc. injection Hinc as <-.
    split; [lia|]. intros a o Ha.
    destruct (Hframe a o Ha) as (o1 & Ha1 & Ht & Hk & Hpr & Hq1).
    destruct (Hw a o1 Ha1) as (o' & Ha' & Hw').
    exists o'. split; [done|]. eapply worn_trans; [|done].
    unfold worn. split_and!; try done.
    + case_decide; lia.
    + case_decide as Hab; [|lia]. intros _.
      destruct Hab as [->| ->].
      * rewrite Hc in Ha. injection Ha as <-. lia.
      * rewrite Hb in Ha. injection Ha as <-. lia.
    + case_decide as Hab; [|lia]. intros Hle. exfalso.
      destruct Hab as [->| ->].
      * rewrite Hc in Ha. injection Ha as <-. lia.
      * rewrite Hb in Ha. injection Ha as <-. lia.
  - apply match_order_false_inv in Hm as ->. rewrite Hc. simpl. by apply IH.
Qed.

(** X4.  Through a sweep the store keeps its objects, and every order keeps
    its type, ticker and price; its quantity never grows, stays at least 0
    if it was, and does not change at all once it is 0 or less: a filled
    order is never traded again. *)
Theorem sweep_wears_orders_down fuel st thread_id st' a o :
  OrderBook.process_orders fuel st thread_id = Some st' →
  OrderBook.heap st !! a = Some o →
  length (OrderBook.heap st') = length (OrderBook.heap st) ∧
  ∃ o', OrderBook.heap st' !! a = Some o' ∧
        Order.type o' = Order.type o ∧ Order.ticker o' = Order.ticker o ∧
        Order.price o' = Order.price o ∧
        Order.quantity o' <= Order.quantity o ∧
        (0 <= Order.quantity o → 0 <= Order.quantity o') ∧
        (Order.quantity o <= 0 → Order.quantity o' = Order.quantity o).
Proof.
  intros Hp Ha. destruct (process_orders_from_worn _ _ _ _ _ Hp) as (Hlen & Hw).
  split; [done|]. destruct (Hw a o Ha) as (o' & Ha' & Hw'). exists o'. by split.
Qed.

Lemma sweep_wears_orders_down_witness :
  length (OrderBook.heap Swept.fill_chain_book)
    = length (OrderBook.heap Scenario.fill_chain_book) ∧
  ∃ o', OrderBook.heap Swept.fill_chain_book !! 0%nat = Some o' ∧
        Order.type o' = Order.type (Order.mk "SELL" 1 10 100 None) ∧
        Order.ticker o' = Order.ticker (Order.mk "SELL" 1 10 100 None) ∧
        Order.price o' = Order.price (Order.mk "SELL" 1 10 100 None) ∧
        Order.quantity o' <= Order.quantity (Order.mk "SELL" 1 10 100 None) ∧
        (0 <= Order.quantity (Order.mk "SELL" 1 10 100 None) → 0 <= Order.quantity o') ∧
        (Order.quantity (Order.mk "SELL" 1 10 100 None) <= 0 →
         Order.quantity o' = Order.quantity (Order.mk "SELL" 1 10 100 None)).
Proof.
  apply (sweep_wears_orders_down 7 Scenario.fill_chain_book 0 Swept.fill_chain_book
           0%nat (Order.mk "SELL" 1 10 100 None)); reflexivity.
Defined.

(** X5.  Any call of [match_order], whatever the incoming order and the
    shape of the store: every order keeps its type, ticker and price, a
    quantity that was at least 0 stays at least 0, and a quantity of 0 stays
    0. *)
Theorem match_order_never_overdraws fuel st i thread_id r st' a o :
  OrderBook.match_order fuel st i thread_id = Some (r, st') →
  OrderBook.heap st !! a = Some o →
  ∃ o', OrderBook.heap st' !! a = Some o' ∧
        Order.type o' = Order.type o ∧ Order.ticker o' = Order.ticker o ∧
        Order.price o' = Order.price o ∧
        (0 <= Order.quantity o → 0 <= Order.quantity o') ∧
        (Order.quantity o = 0 → Order.quantity o' = 0).
Proof.
  intros Hm Ha. destruct r.
  - destruct (match_order_true_inv _ _ _ _ _ Hm)
      as (b & bp & inc & bo & Hinc & Hb & _ & Hib & Hqb & _ & Ht & _ & _ & Hframe).
    destruct (Hframe a o Ha) as (o' & Ha' & ? & ? & ? & Hq).
    exists o'. split_and!; try done.
    + case_decide as Hab; [|lia]. intros _.
      destruct Hab as [->| ->].
      * rewrite Hinc in Ha. injection Ha as <-. lia.
      * rewrite Hb in Ha. injection Ha as <-. lia.
    + case_decide as Hab; [|lia]. intros Hz.
      destruct Hab as [->| ->].
      * rewrite Hinc in Ha. injection Ha as <-. lia.
      * rewrite Hb in Ha. injection Ha as <-. lia.
  - apply match_order_false_inv in Hm as ->. exists o. split_and!; done.
Qed.

Lemma match_order_never_overdraws_witness :
  ∃ o', OrderBook.heap Scenario.tie_book_matched !! 1%nat = Some o' ∧
        Order.type o' = Order.type (Order.mk "SELL" 1 5 8 (Some 0%nat)) ∧
        Order.ticker o' = Order.ticker (Order.mk "SELL" 1 5 8 (Some 0%nat)) ∧
        Order.price o' = Order.price (Order.mk "SELL" 1 5 8 (Some 0%nat)) ∧
        (0 <= Order.quantity (Order.mk "SELL" 1 5 8 (Some 0%nat)) →
         0 <= Order.quantity o') ∧
        (Order.quantity (Order.mk "SELL" 1 5 8 (Some 0%nat)) = 0 →
         Order.quantity o' = 0).
Proof.
  apply (match_order_never_overdraws 4 Scenario.tie_book 2%nat 0 true
           Scenario.tie_book_matched 1%nat (Order.mk "SELL" 1 5 8 (Some 0%nat)));
    reflexivity.
Defined.

(** ** The predecessor that the search returns *)

Lemma last_open_all_closed h l :
  (∀ a, a ∈ l → is_open h a = false) → last_open h None l = None.
Proof.
  induction l as [|x l IH] using rev_ind; intros Hl; [done|].
  rewrite last_open_snoc, (Hl x) by (apply elem_of_app; right; left).
  apply IH. intros a Ha. apply Hl. apply elem_of_app. by left.
Qed.

Lemma last_open_has_open h l a :
  a ∈ l → is_open h a = true → is_Some (last_open h None l).
Proof.
  intros Ha Hopen. destruct (last_open h None l) as [p|] eqn:Hl; [eauto|].
  rewrite (last_open_None _ _ Hl a Ha) in Hopen. done.
Qed.

Lemma NoDup_split_inj (l1 l2 k1 k2 : list nat) x :
  NoDup (l1 ++ x :: l2) → l1 ++ x :: l2 = k1 ++ x :: k2 → l1 = k1.
Proof.
  revert k1. induction l1 as [|y l1 IH]; intros [|z k1] Hnd Heq; simpl in *.
  - done.
  - injection Heq as <- ->. apply NoDup_cons in Hnd as [Hx _]. exfalso. apply Hx.
    apply elem_of_app. right. left.
  - injection Heq as -> <-. apply NoDup_cons in Hnd as [Hx _]. exfalso. apply Hx.
    apply elem_of_app. right. left.
  - injection Heq as -> Heq. apply NoDup_cons in Hnd as [_ Hnd]. f_equal. eauto.
Qed.

(** The search as it returned, with any fuel, on a finite chain. *)
Lemma find_best_chain_ret h incoming c l fuel best bp :
  chain h c l →
  OrderBook.find_best fuel h incoming None None None c = Some (best, bp) →
  ∃ prev, scan_inv h incoming l prev best bp.
Proof.
  intros Hc Hfb.
  set (big := (fuel `max` S (length l))%nat).
  assert (fuel ≤ big)%nat as Hle by lia.
  destruct (find_best_chain h incoming c l big Hc ltac:(lia))
    as (prev & best' & bp' & Hfb' & Hinv).
  rewrite (find_best_mono _ _ _ _ _ _ _ _ _ Hle Hfb) in Hfb'.
  injection Hfb' as <- <-. eauto.
Qed.

(** X6.  The predecessor returned with a candidate is the last node of
    positive quantity scanned before it.  So it is the candidate's immediate
    predecessor whenever that node has positive quantity, it is [None] when
    the candidate is the head, and it is [None] exactly when no node in
    front of the candidate has positive quantity. *)
Theorem find_best_returns_last_open h incoming c l fuel b bp :
  chain h c l →
  OrderBook.find_best fuel h incoming None None None c = Some (Some b, bp) →
  ∃ pre post,
    l = pre ++ b :: post ∧
    bp = last_open h None pre ∧
    (pre = [] → bp = None) ∧
    (∀ pre' p, pre = pre' ++ [p] → is_open h p = true → bp = Some p) ∧
    (bp = None ↔ ∀ a, a ∈ pre → is_open h a = false).
Proof.
  intros Hc Hfb.
  destruct (find_best_chain_ret _ _ _ _ _ _ _ Hc Hfb)
    as (prev & _ & pre & post & bo & Hl & _ & _ & _ & Hbp & _).
  exists pre, post. split_and!; try done.
  - by intros ->.
  - intros pre' p -> Hp. by rewrite Hbp, last_open_snoc, Hp.
  - split.
    + intros ->. by apply last_open_None.
    + intros Hall. rewrite Hbp. by apply last_open_all_closed.
Qed.

Lemma find_best_returns_last_open_witness :
  ∃ pre post,
    [3; 2; 0]%nat = pre ++ 0%nat :: post ∧
    Some 3%nat = last_open (OrderBook.heap Scenario.stale_middle_book) None pre ∧
    (pre = [] → Some 3%nat = None) ∧
    (∀ pre' p, pre = pre' ++ [p] →
               is_open (OrderBook.heap Scenario.stale_middle_book) p = true →
               Some 3%nat = Some p) ∧
    (Some 3%nat = None ↔
     ∀ a, a ∈ pre → is_open (OrderBook.heap Scenario.stale_middle_book) a = false).
Proof.
  apply (find_best_returns_last_open (OrderBook.heap Scenario.stale_middle_book)
           (Order.mk "BUY" 1 5 100 (Some 2%nat)) (Some 3%nat) [3; 2; 0]%nat 4
           0%nat (Some 3%nat)).
  - chain_by_computation.
  - reflexivity.
Defined.

(** ** When the filled candidate leaves the chain *)

(** X7.  If the search returned a predecessor, or the candidate is the head,
    then a candidate whose quantity the trade brings to 0 is unlinked: the
    book afterwards is a finite chain without it, made of nodes of the old
    chain, and [get_order_list] returns that chain. *)
Theorem filled_candidate_unlinked fuel st i thread_id l inc b bp bo st' :
  chain (OrderBook.heap st) (OrderBook.head st) l →
  OrderBook.heap st !! i = Some inc →
  OrderBook.find_best fuel (OrderBook.heap st) inc None None None (OrderBook.head st)
    = Some (Some b, bp) →
  OrderBook.heap st !! b = Some bo →
  OrderBook.match_order fuel st i thread_id = Some (true, st') →
  Order.quantity bo <= Order.quantity inc →
  is_Some bp ∨ OrderBook.head st = Some b →
  ∃ l', chain (OrderBook.heap st') (OrderBook.head st') l' ∧
        l' `sublist_of` l ∧ (b ∉ l') ∧
        OrderBook.get_order_list (S (length l)) st' = Some l'.
Proof.
  intros Hc Hinc Hfb Hb Hm Hle Hbp.
  destruct (match_order_outcome_ret _ _ _ _ _ _ _ _ Hc Hinc Hm)
    as (prev & best & bp' & Hfb' & _ & Hres).
  rewrite Hfb in Hfb'. injection Hfb' as <- <-.
  destruct Hres as (bo' & Hb' & Hres). rewrite Hb in Hb'. injection Hb' as <-.
  destruct (decide _) as [Hz|Hz]; [by destruct Hres|].
  destruct Hres as (_ & l' & Hpost).
  destruct Hpost as (_ & _ & _ & Hc' & Hsub & _ & _ & Hgone).
  exists l'. split_and!; try done.
  - apply Hgone; [lia|done].
  - apply get_order_list_from_chain; [done|].
    apply sublist_length in Hsub. lia.
Qed.

Lemma filled_candidate_unlinked_witness :
  ∃ l', chain (OrderBook.heap Scenario.tie_book_matched)
          (OrderBook.head Scenario.tie_book_matched) l' ∧
        l' `sublist_of` [2; 1; 0]%nat ∧ (1%nat ∉ l') ∧
        OrderBook.get_order_list (S (length [2; 1; 0]%nat)) Scenario.tie_book_matched
        = Some l'.
Proof.
  apply (filled_candidate_unlinked 4 Scenario.tie_book 2%nat 0 [2; 1; 0]%nat
           (Order.mk "BUY" 1 5 10 (Some 1%nat)) 1%nat (Some 2%nat)
           (Order.mk "SELL" 1 5 8 (Some 0%nat)) Scenario.tie_book_matched).
  - chain_by_computation.
  - reflexivity.
  - reflexivity.
  - reflexivity.
  - reflexivity.
  - simpl. lia.
  - left. eexists. reflexivity.
Defined.

(** X8.  Let [match_order] be called for an order [i] of positive quantity
    such that no order of positive quantity in front of [i] crosses any
    order of positive quantity of the book.  If it trades, the candidate
    stands behind [i] in the chain, the search returned a predecessor, and
    a candidate that the trade fills is no longer in the chain afterwards. *)
Theorem first_crossing_order_unlinks_match fuel st i thread_id l0 lc inc b bp bo st' :
  chain (OrderBook.heap st) (OrderBook.head st) (l0 ++ i :: lc) →
  OrderBook.heap st !! i = Some inc → 0 < Order.quantity inc →
  settled (OrderBook.heap st) (l0 ++ i :: lc) l0 →
  OrderBook.find_best fuel (OrderBook.heap st) inc None None None (OrderBook.head st)
    = Some (Some b, bp) →
  OrderBook.heap st !! b = Some bo →
  OrderBook.match_order fuel st i thread_id = Some (true, st') →
  b ∈ lc ∧ is_Some bp ∧
  ∃ l', chain (OrderBook.heap st') (OrderBook.head st') l' ∧
        (Order.quantity bo <= Order.quantity inc → b ∉ l').
Proof.
  intros Hc Hinc Hqi Hs Hfb Hb Hm.
  destruct (match_order_outcome_ret _ _ _ _ _ _ _ _ Hc Hinc Hm)
    as (prev & best & bp' & Hfb' & Hinv & Hres).
  rewrite Hfb in Hfb'. injection Hfb' as <- <-.
  destruct Hinv as [_ (pre & post & bo' & Hl & Hb' & Hqb & Hx & Hbp & _)].
  rewrite Hb in Hb'. injection Hb' as <-.
  destruct Hres as (bo' & Hb' & Hres). rewrite Hb in Hb'. injection Hb' as <-.
  destruct (decide _) as [Hz|Hz]; [by destruct Hres|].
  destruct Hres as (_ & l' & Hpost).
  destruct Hpost as (_ & _ & _ & Hc' & _ & _ & _ & Hgone).
  assert (b ∈ l0 ++ i :: lc) as Hbl.
  { rewrite Hl. apply elem_of_app. right. left. }
  assert (b ∈ lc) as Hblc.
  { apply elem_of_app in Hbl as [Hb0|Hbl].
    - exfalso. eapply (Hs b i bo inc); try done.
      + apply elem_of_app. right. left.
      + by apply crossing_sym.
    - apply elem_of_cons in Hbl as [->|?]; [|done].
      exfalso. rewrite Hinc in Hb. injection Hb as ->. by eapply crossing_neq. }
  assert (is_Some bp) as Hsome.
  { apply list_elem_of_split in Hblc as (m1 & m2 & ->).
    assert (pre = l0 ++ i :: m1) as ->.
    { symmetry. eapply (NoDup_split_inj _ m2 _ post b).
      - rewrite <- app_assoc. simpl. by eapply chain_NoDup.
      - rewrite <- app_assoc. simpl. done. }
    rewrite Hbp. apply (last_open_has_open _ _ i).
    - apply elem_of_app. right. left.
    - apply is_open_true. eauto. }
  split_and!; try done.
  exists l'. split; [done|]. intros Hle. apply Hgone; [lia|by left].
Qed.

Lemma first_crossing_order_unlinks_match_witness :
  1%nat ∈ [1; 0]%nat ∧ is_Some (Some 2%nat) ∧
  ∃ l', chain (OrderBook.heap Scenario.tie_book_matched)
          (OrderBook.head Scenario.tie_book_matched) l' ∧
        (Order.quantity (Order.mk "SELL" 1 5 8 (Some 0%nat))
         <= Order.quantity (Order.mk "BUY" 1 5 10 (Some 1%nat)) → 1%nat ∉ l').
Proof.
  apply (first_crossing_order_unlinks_match 4 Scenario.tie_book 2%nat 0 [] [1; 0]%nat
           (Order.mk "BUY" 1 5 10 (Some 1%nat)) 1%nat (Some 2%nat)
           (Order.mk "SELL" 1 5 8 (Some 0%nat)) Scenario.tie_book_matched).
  - chain_by_computation.
  - reflexivity.
  - simpl. lia.
  - intros a b oa ob Ha. inversion Ha.
  - reflexivity.
  - reflexivity.
  - reflexivity.
Defined.

(** ** Adding orders *)

(** X9.  Adding an order that is not linked yet to a finite book succeeds at
    the first compare-and-swap: the order becomes the head in front of the
    old chain, which is left as it was, one line is printed, and every other
    object of the store is untouched. *)
Theorem add_order_inserts_at_head st a o l :
  chain (OrderBook.heap st) (OrderBook.head st) l →
  OrderBook.heap st !! a = Some o → a ∉ l →
  ∃ st', OrderBook.add_order st a = Some st' ∧
         OrderBook.head st' = Some a ∧
         chain (OrderBook.heap st') (OrderBook.head st') (a :: l) ∧
         OrderBook.get_order_list (S (S (length l))) st' = Some (a :: l) ∧
         OrderBook.heap st' !! a = Some (Order.set_next (OrderBook.head st) o) ∧
         (∀ x, x ≠ a → OrderBook.heap st' !! x = OrderBook.heap st !! x) ∧
         OrderBook.out st' = OrderBook.out st ++ [OrderAdded (Order.str o)].
Proof.
  intros Hc Ha Hal.
  destruct (add_order_prepends st a o l Hc Ha Hal) as (st' & Hadd & Hc' & Hout).
  exists st'. split_and!; try done.
  - by destruct Hc' as [? _].
  - apply get_order_list_from_chain; [done|]. simpl. lia.
  - revert Hadd. unfold OrderBook.add_order, OrderBook.atomic_compare_and_swap.
    cbn. rewrite decide_True by done. cbn. rewrite list_lookup_alter_eq, Ha. cbn.
    intros [= <-]. cbn. by rewrite list_lookup_alter_eq, Ha.
  - intros x Hx. revert Hadd.
    unfold OrderBook.add_order, OrderBook.atomic_compare_and_swap.
    cbn. rewrite decide_True by done. cbn. rewrite list_lookup_alter_eq, Ha. cbn.
    intros [= <-]. cbn. by rewrite list_lookup_alter_ne.
Qed.

Lemma add_order_inserts_at_head_witness :
  ∃ st', OrderBook.add_order Scenario.tie_book_matched 1 = Some st' ∧
         OrderBook.head st' = Some 1%nat ∧
         chain (OrderBook.heap st') (OrderBook.head st') [1; 2; 0]%nat ∧
         OrderBook.get_order_list (S (S (length [2; 0]%nat))) st' = Some [1; 2; 0]%nat ∧
         OrderBook.heap st' !! 1%nat
         = Some (Order.set_next (OrderBook.head Scenario.tie_book_matched)
                   (Order.mk "SELL" 1 0 8 (Some 0%nat))) ∧
         (∀ x, x ≠ 1%nat →
               OrderBook.heap st' !! x = OrderBook.heap Scenario.tie_book_matched !! x) ∧
         OrderBook.out st' =
           OrderBook.out Scenario.tie_book_matched
             ++ [OrderAdded (Order.str (Order.mk "SELL" 1 0 8 (Some 0%nat)))].
Proof.
  apply (add_order_inserts_at_head Scenario.tie_book_matched 1%nat
           (Order.mk "SELL" 1 0 8 (Some 0%nat)) [2; 0]%nat).
  - chain_by_computation.
  - reflexivity.
  - intros [Hin|Hin]%elem_of_cons; [discriminate|].
    apply list_elem_of_singleton in Hin. discriminate.
Defined.

(** ** Adding an order that is already linked *)

(** Every loop over the list returns only if the list ends. *)
Lemma find_best_ret_chain h incoming fuel :
  ∀ prev best bp cur r,
    OrderBook.find_best fuel h incoming prev best bp cur = Some r →
    ∃ l, chain h cur l.
Proof.
  induction fuel as [|fuel IH]; intros prev best bp cur r; [done|]. simpl.
  destruct cur as [c|]; [|intros _; by exists []].
  destruct (h !! c) as [o|] eqn:Ho; [|done]. simpl.
  assert (∀ prev best bp r,
            OrderBook.find_best fuel h incoming prev best bp (Order.next o) = Some r →
            ∃ l, chain h (Some c) l) as Hstep.
  { intros ???? Hr. destruct (IH _ _ _ _ _ Hr) as [l Hl]. exists (c :: l).
    split; [done|]. eauto. }
  destruct (Order.quantity o <=? 0); [by apply Hstep|].
  destruct (OrderBook.eligible incoming o); [|by apply Hstep].
  destruct (OrderBook.improves h incoming o best) as [[|]|]; simpl;
    [by apply Hstep..|done].
Qed.

Lemma display_from_sound h fuel :
  ∀ c rows, OrderBook.display_from fuel h c = Some rows → ∃ l, chain h c l.
Proof.
  induction fuel as [|fuel IH]; intros c rows; [done|]. simpl.
  destruct c as [c|]; [|intros _; by exists []].
  destruct (h !! c) as [o|] eqn:Ho; [|done]. simpl.
  destruct (OrderBook.display_from fuel h (Order.next o)) as [rest|] eqn:Hr; [|done].
  intros _. destruct (IH _ _ Hr) as [l Hl]. exists (c :: l). split; [done|]. eauto.
Qed.

Lemma match_order_ret_chain fuel st i thread_id r :
  OrderBook.match_order fuel st i thread_id = Some r →
  ∃ l, chain (OrderBook.heap st) (OrderBook.head st) l.
Proof.
  unfold OrderBook.match_order.
  destruct (OrderBook.heap st !! i) as [inc|]; [|done]. simpl.
  destruct (OrderBook.find_best _ _ _ _ _ _ _) as [x|] eqn:Hfb; [|done].
  intros _. by eapply find_best_ret_chain.
Qed.

Lemma process_orders_from_ret_chain thread_id fuel st :
  (∀ l, ¬ chain (OrderBook.heap st) (OrderBook.head st) l) →
  ∀ cur st', OrderBook.process_orders_from fuel st thread_id cur = Some st' →
             ∃ lc, chain (OrderBook.heap st) cur lc.
Proof.
  intros Hno. induction fuel as [|fuel IH]; intros cur st'; [done|]. simpl.
  destruct cur as [c|]; [|intros _; by exists []].
  destruct (OrderBook.heap st !! c) as [o|] eqn:Ho; [|done]. simpl.
  destruct (0 <? Order.quantity o).
  - destruct (OrderBook.match_order fuel st c thread_id) as [x|] eqn:Hm; [|done].
    destruct (match_order_ret_chain _ _ _ _ _ Hm) as [l Hl]. by destruct (Hno l).
  - intros Hp. destruct (IH _ _ Hp) as [lc Hlc]. exists (c :: lc).
    split; [done|]. eauto.
Qed.

(** Walking a changed store along an old chain whose nodes were not
    changed. *)
Lemma chain_follow h h' c l1 a l2 m :
  chain h c (l1 ++ a :: l2) →
  (∀ x, x ∈ l1 → h' !! x = h !! x) →
  chain h' c m → ∃ m', m = l1 ++ a :: m'.
Proof.
  revert c m. induction l1 as [|x l1 IH]; intros c m Hc Hsame Hm.
  - destruct Hc as [-> _]. destruct m as [|y m]; [done|].
    destruct Hm as [[= <-] _]. by exists m.
  - destruct Hc as [-> (o & Ho & Hc)]. destruct m as [|y m]; [done|].
    destruct Hm as [[= <-] (o' & Ho' & Hm)].
    rewrite (Hsame x) in Ho' by left. rewrite Ho in Ho'. injection Ho' as <-.
    destruct (IH _ _ Hc ltac:(intros; apply Hsame; by right) Hm) as [m' ->].
    by exists m'.
Qed.

Lemma add_order_linked_cycle st a l :
  chain (OrderBook.heap st) (OrderBook.head st) l → a ∈ l →
  ∃ st', OrderBook.add_order st a = Some st' ∧
         ∀ l', ¬ chain (OrderBook.heap st') (OrderBook.head st') l'.
Proof.
  intros Hc Ha.
  destruct (chain_lookup _ _ _ _ Hc Ha) as [o Ho].
  unfold OrderBook.add_order, OrderBook.atomic_compare_and_swap.
  cbn. rewrite decide_True by done. cbn. rewrite list_lookup_alter_eq, Ho. cbn.
  eexists. split; [done|]. cbn. intros l' Hl'.
  pose proof (chain_NoDup _ _ _ Hl') as Hnd'.
  pose proof (chain_NoDup _ _ _ Hc) as Hnd.
  apply list_elem_of_split in Ha as (l1 & l2 & ->).
  destruct l' as [|y m]; [done|].
  destruct Hl' as [[= <-] (o' & Ho' & Hm)].
  rewrite list_lookup_alter_eq, Ho in Ho'. injection Ho' as <-. cbn in Hm.
  assert (∀ x, x ∈ l1 →
            alter (Order.set_next (OrderBook.head st)) a (OrderBook.heap st) !! x
            = OrderBook.heap st !! x) as Hsame.
  { intros x Hx. rewrite list_lookup_alter_ne; [done|]. intros ->.
    apply NoDup_app in Hnd as (_ & Hnd & _). eapply Hnd; [done|left]. }
  destruct (chain_follow _ _ _ _ _ _ _ Hc Hsame Hm) as [m' ->].
  apply NoDup_cons in Hnd' as [Hnd' _]. apply Hnd'.
  apply elem_of_app. right. left.
Qed.

(** X10.  [add_order] does not check whether the order is already in the
    list.  Adding a linked order again succeeds and closes the list into a
    cycle: no finite chain starts at the head any more, and
    [get_order_list], [display], [match_order] and [process_orders] never
    return on the resulting book, with whatever fuel. *)
Theorem adding_linked_order_again_loops st a l :
  chain (OrderBook.heap st) (OrderBook.head st) l → a ∈ l →
  ∃ st', OrderBook.add_order st a = Some st' ∧
         (∀ l', ¬ chain (OrderBook.heap st') (OrderBook.head st') l') ∧
         (∀ fuel, OrderBook.get_order_list fuel st' = None) ∧
         (∀ fuel, OrderBook.display_rows fuel st' = None) ∧
         (∀ fuel i thread_id, OrderBook.match_order fuel st' i thread_id = None) ∧
         (∀ fuel thread_id, OrderBook.process_orders fuel st' thread_id = None).
Proof.
  intros Hc Ha.
  destruct (add_order_linked_cycle st a l Hc Ha) as (st' & Hadd & Hno).
  exists st'. split_and!; try done.
  - intros fuel. destruct (OrderBook.get_order_list fuel st') as [l'|] eqn:Hg; [|done].
    apply get_order_list_from_sound in Hg. by destruct (Hno l').
  - intros fuel. destruct (OrderBook.display_rows fuel st') as [rows|] eqn:Hd; [|done].
    apply display_from_sound in Hd as [l' Hl']. by destruct (Hno l').
  - intros fuel i thread_id.
    destruct (OrderBook.match_order fuel st' i thread_id) as [r|] eqn:Hm; [|done].
    apply match_order_ret_chain in Hm as [l' Hl']. by destruct (Hno l').
  - intros fuel thread_id.
    destruct (OrderBook.process_orders fuel st' thread_id) as [r|] eqn:Hp; [|done].
    apply (process_orders_from_ret_chain _ _ _ Hno) in Hp as [l' Hl'].
    by destruct (Hno l').
Qed.

Lemma adding_linked_order_again_loops_witness :
  ∃ st', OrderBook.add_order Scenario.end_to_end_book 1 = Some st' ∧
         (∀ l', ¬ chain (OrderBook.heap st') (OrderBook.head st') l') ∧
         (∀ fuel, OrderBook.get_order_list fuel st' = None) ∧
         (∀ fuel, OrderBook.display_rows fuel st' = None) ∧
         (∀ fuel i thread_id, OrderBook.match_order fuel st' i thread_id = None) ∧
         (∀ fuel thread_id, OrderBook.process_orders fuel st' thread_id = None).
Proof.
  apply (adding_linked_order_again_loops Scenario.end_to_end_book 1%nat [1; 0]%nat).
  - chain_by_computation.
  - left.
Defined.

(** The book of that witness: the head links to itself. *)
Example readded_head_links_to_itself :
  OrderBook.add_order Scenario.end_to_end_book 1 = Some Swept.end_to_end_book_readded ∧
  OrderBook.head Swept.end_to_end_book_readded = Some 1%nat ∧
  Order.next <$> OrderBook.heap Swept.end_to_end_book_readded !! 1%nat
  = Some (Some 1%nat).
Proof. split_and!; reflexivity. Qed.

(** ** Resetting the book *)

(** X11.  [reset] drops the whole list at once and nothing else: the store
    and the printed lines stay as they are, [get_order_list] and [display]
    find nothing, a sweep and [match_order] do nothing.  Any order of the
    store, linked before or not, can then be added again and becomes the
    only node of the list. *)
Theorem reset_discards_list st a o fuel thread_id :
  OrderBook.heap st !! a = Some o →
  OrderBook.heap (OrderBook.reset st) = OrderBook.heap st ∧
  OrderBook.out (OrderBook.reset st) = OrderBook.out st ∧
  OrderBook.get_order_list (S fuel) (OrderBook.reset st) = Some [] ∧
  OrderBook.display_rows (S fuel) (OrderBook.reset st) = Some [] ∧
  OrderBook.process_orders (S fuel) (OrderBook.reset st) thread_id
    = Some (OrderBook.reset st) ∧
  OrderBook.match_order (S fuel) (OrderBook.reset st) a thread_id
    = Some (false, OrderBook.reset st) ∧
  ∃ st', OrderBook.add_order (OrderBook.reset st) a = Some st' ∧
         chain (OrderBook.heap st') (OrderBook.head st') [a] ∧
         OrderBook.get_order_list (S (S fuel)) st' = Some [a].
Proof.
  intros Ha. split_and!; try done.
  - unfold OrderBook.match_order. cbn. by rewrite Ha.
  - destruct (add_order_prepends (OrderBook.reset st) a o []) as (st' & Hadd & Hc & _);
      [done|done|apply not_elem_of_nil|].
    exists st'. split_and!; try done.
    apply get_order_list_from_chain; [done|]. simpl. lia.
Qed.

Lemma reset_discards_list_witness :
  OrderBook.heap (OrderBook.reset Scenario.end_to_end_book)
    = OrderBook.heap Scenario.end_to_end_book ∧
  OrderBook.out (OrderBook.reset Scenario.end_to_end_book)
    = OrderBook.out Scenario.end_to_end_book ∧
  OrderBook.get_order_list 1 (OrderBook.reset Scenario.end_to_end_book) = Some [] ∧
  OrderBook.display_rows 1 (OrderBook.reset Scenario.end_to_end_book) = Some [] ∧
  OrderBook.process_orders 1 (OrderBook.reset Scenario.end_to_end_book) 0
    = Some (OrderBook.reset Scenario.end_to_end_book) ∧
  OrderBook.match_order 1 (OrderBook.reset Scenario.end_to_end_book) 1 0
    = Some (false, OrderBook.reset Scenario.end_to_end_book) ∧
  ∃ st', OrderBook.add_order (OrderBook.reset Scenario.end_to_end_book) 1 = Some st' ∧
         chain (OrderBook.heap st') (OrderBook.head st') [1%nat] ∧
         OrderBook.get_order_list 2 st' = Some [1%nat].
Proof.
  apply (reset_discards_list Scenario.end_to_end_book 1%nat
           (Order.mk "BUY" 1 0 105 (Some 0%nat)) 0 0).
  reflexivity.
Defined.

(** ** What [display] shows *)

Lemma elem_of_open_rows h l row :
  row ∈ open_rows h l ↔
  ∃ a o, a ∈ l ∧ h !! a = Some o ∧ 0 < Order.quantity o ∧ row = Order.str o.
Proof.
  unfold open_rows. rewrite list_elem_of_omap. split.
  - intros (a & Ha & Hrow). destruct (h !! a) as [o|] eqn:Ho; [|done].
    simpl in Hrow. destruct (Z.ltb_spec 0 (Order.quantity o)); [|done].
    injection Hrow as <-. eauto 6.
  - intros (a & o & Ha & Ho & Hq & ->). exists a. split; [done|].
    rewrite Ho. simpl. by rewrite (proj2 (Z.ltb_lt _ _) Hq).
Qed.

(** X12.  On a finite book [display] collects the rows of exactly the orders
    of [get_order_list] that have positive quantity, in the same order.  It
    therefore reports an empty book exactly when no linked order has
    positive quantity, filled orders that are still linked notwithstanding. *)
Theorem display_shows_open_orders st l fuel :
  chain (OrderBook.heap st) (OrderBook.head st) l → (length l < fuel)%nat →
  OrderBook.get_order_list fuel st = Some l ∧
  OrderBook.display_rows fuel st = Some (open_rows (OrderBook.heap st) l) ∧
  (∀ row, row ∈ open_rows (OrderBook.heap st) l ↔
          ∃ a o, a ∈ l ∧ OrderBook.heap st !! a = Some o ∧
                 0 < Order.quantity o ∧ row = Order.str o) ∧
  (open_rows (OrderBook.heap st) l = [] ↔
   ∀ a o, a ∈ l → OrderBook.heap st !! a = Some o → Order.quantity o <= 0).
Proof.
  intros Hc Hfuel. split_and!.
  - by apply get_order_list_from_chain.
  - by apply display_from_chain.
  - apply elem_of_open_rows.
  - split.
    + intros Hnil a o Ha Ho.
      destruct (Z.le_gt_cases (Order.quantity o) 0) as [|Hq]; [done|].
      assert (Order.str o ∈ open_rows (OrderBook.heap st) l) as Hin.
      { apply elem_of_open_rows. exists a, o. split_and!; try done; lia. }
      rewrite Hnil in Hin. by apply elem_of_nil in Hin.
    + intros Hall. destruct (open_rows (OrderBook.heap st) l) as [|row rows] eqn:Hr;
        [done|].
      assert (row ∈ open_rows (OrderBook.heap st) l) as Hin by (rewrite Hr; left).
      apply elem_of_open_rows in Hin as (a & o & Ha & Ho & Hq & _).
      pose proof (Hall a o Ha Ho). lia.
Qed.

Lemma display_shows_open_orders_witness :
  OrderBook.get_order_list 4 Swept.dataset_book = Some [2; 1; 0]%nat ∧
  OrderBook.display_rows 4 Swept.dataset_book
  = Some (open_rows (OrderBook.heap Swept.dataset_book) [2; 1; 0]%nat) ∧
  (∀ row, row ∈ open_rows (OrderBook.heap Swept.dataset_book) [2; 1; 0]%nat ↔
          ∃ a o, a ∈ [2; 1; 0]%nat ∧ OrderBook.heap Swept.dataset_book !! a = Some o ∧
                 0 < Order.quantity o ∧ row = Order.str o) ∧
  (open_rows (OrderBook.heap Swept.dataset_book) [2; 1; 0]%nat = [] ↔
   ∀ a o, a ∈ [2; 1; 0]%nat → OrderBook.heap Swept.dataset_book !! a = Some o →
          Order.quantity o <= 0).
Proof.
  apply (display_shows_open_orders Swept.dataset_book [2; 1; 0]%nat 4).
  - chain_by_computation.
  - simpl. lia.
Defined.

(** ** One worker on its own *)

Lemma crossing_fields x x' y y' :
  Order.type x' = Order.type x → Order.ticker x' = Order.ticker x →
  Order.price x' = Order.price x →
  Order.type y' = Order.type y → Order.ticker y' = Order.ticker y →
  Order.price y' = Order.price y →
  crossing x y → crossing x' y'.
Proof. unfold crossing. intros -> -> -> -> -> ->. done. Qed.

(** Creating an order and adding it, as the workers do. *)
Lemma submit_spec st order_type ticker quantity price l :
  chain (OrderBook.heap st) (OrderBook.head st) l →
  ∃ st1,
    TradingEngine.submit st order_type ticker quantity price
      = Some (length (OrderBook.heap st), st1) ∧
    OrderBook.head st1 = Some (length (OrderBook.heap st)) ∧
    OrderBook.heap st1 =
      OrderBook.heap st
        ++ [Order.set_next (OrderBook.head st)
              (Order.init order_type ticker quantity price)] ∧
    OrderBook.out st1 =
      OrderBook.out st
        ++ [OrderAdded (Order.str (Order.init order_type ticker quantity price))] ∧
    chain (OrderBook.heap st1) (OrderBook.head st1) (length (OrderBook.heap st) :: l).
Proof.
  intros Hc.
  assert (∀ (f : Order.t → Order.t) (h : list Order.t) x,
            alter f (length h) (h ++ [x]) = h ++ [f x]) as Hsnoc.
  { intros f h x. replace (length h) with (length h + 0)%nat by lia.
    by rewrite alter_app_r. }
  assert (∀ (h : list Order.t) x, (h ++ [x]) !! length h = Some x) as Hlast.
  { intros h x. rewrite lookup_app_r by done. by rewrite Nat.sub_diag. }
  unfold TradingEngine.submit, OrderBook.new_Order, OrderBook.add_order,
    OrderBook.atomic_compare_and_swap.
  cbn. rewrite decide_True by done. cbn. rewrite Hsnoc, Hlast. cbn.
  eexists. split; [reflexivity|]. cbn. split_and!; try done.
  eexists. rewrite Hlast. split; [done|]. cbn.
  eapply chain_ext; [|done]. intros x Hx.
  destruct (chain_lookup _ _ _ _ Hc Hx) as [ox Hox].
  rewrite lookup_app_l; [done|]. by apply lookup_lt_Some in Hox.
Qed.

(** One turn of a worker's loop on a finite book. *)
Lemma place_spec st thread_id order_type ticker quantity price l :
  chain (OrderBook.heap st) (OrderBook.head st) l →
  ∃ n st' l',
    (∀ fuel, (n ≤ fuel)%nat →
       TradingEngine.place fuel st thread_id order_type ticker quantity price
       = Some st') ∧
    chain (OrderBook.heap st') (OrderBook.head st') l' ∧
    quiescent (OrderBook.heap st') l' ∧
    length (OrderBook.heap st') = S (length (OrderBook.heap st)) ∧
    (∀ a o, OrderBook.heap st !! a = Some o →
            ∃ o', OrderBook.heap st' !! a = Some o' ∧ worn o o') ∧
    ∃ o', OrderBook.heap st' !! length (OrderBook.heap st) = Some o' ∧
          worn (Order.init order_type ticker quantity price) o'.
Proof.
  intros Hc.
  destruct (submit_spec st order_type ticker quantity price l Hc)
    as (st1 & Hsub & Hhd & Hheap & _ & Hc1).
  set (l1 := length (OrderBook.heap st) :: l) in *.
  set (n := (open_interest (OrderBook.heap st1) * (length l1 + 2)
             + length l1 + length l1 + 2)%nat).
  destruct (process_orders_from_total thread_id n st1 (OrderBook.head st1) l1 [] l1
              Hc1 eq_refl Hc1 ltac:(done)) as (st' & l'' & Hp & _).
  destruct (process_orders_from_uncrossed thread_id n st1 (OrderBook.head st1)
              l1 [] l1 st' Hc1 eq_refl Hc1 (settled_nil _ _) Hp)
    as (l' & Hc' & _ & Hq).
  destruct (process_orders_from_worn _ _ _ _ _ Hp) as (Hlen & Hw).
  exists n, st', l'. split_and!; try done.
  - intros fuel Hle. unfold TradingEngine.place. rewrite Hsub. cbn.
    by eapply process_orders_from_mono.
  - rewrite Hlen, Hheap, length_app. simpl. lia.
  - intros a o Ha. apply Hw. rewrite Hheap.
    rewrite lookup_app_l; [done|]. by apply lookup_lt_Some in Ha.
  - destruct (Hw (length (OrderBook.heap st))
                (Order.set_next (OrderBook.head st)
                   (Order.init order_type ticker quantity price)))
      as (o' & Ho' & Hw').
    { rewrite Hheap, lookup_app_r by lia. by rewrite Nat.sub_diag. }
    exists o'. split; [done|]. exact Hw'.
Qed.

Lemma dataset_worker_spec thread_id queue :
  ∀ st l,
    chain (OrderBook.heap st) (OrderBook.head st) l →
    ∃ n st' l',
      (∀ fuel, (n ≤ fuel)%nat →
         DatasetWorker.process_dataset_orders fuel st queue thread_id
         = Some (st', [], [DatasetWorker.ThreadDone thread_id])) ∧
      chain (OrderBook.heap st') (OrderBook.head st') l' ∧
      (queue = [] → st' = st) ∧
      (queue ≠ [] → quiescent (OrderBook.heap st') l') ∧
      length (OrderBook.heap st') = (length (OrderBook.heap st) + length queue)%nat ∧
      (∀ a o, OrderBook.heap st !! a = Some o →
              ∃ o', OrderBook.heap st' !! a = Some o' ∧ worn o o') ∧
      (∀ k d, queue !! k = Some d →
         ∃ o', OrderBook.heap st' !! (length (OrderBook.heap st) + k)%nat = Some o' ∧
               worn (Order.init (DatasetWorker.order_type d) (DatasetWorker.ticker d)
                       (DatasetWorker.quantity d) (DatasetWorker.price d)) o').
Proof.
  induction queue as [|d rest IH]; intros st l Hc.
  - exists 0%nat, st, l. split_and!; try done.
    intros a o Ha. exists o. split; [done|apply worn_refl].
  - destruct (place_spec st thread_id (DatasetWorker.order_type d)
                (DatasetWorker.ticker d) (DatasetWorker.quantity d)
                (DatasetWorker.price d) l Hc)
      as (n1 & st1 & l1 & Hp1 & Hc1 & Hq1 & Hlen1 & Hw1 & o1 & Ho1 & Hwo1).
    destruct (IH st1 l1 Hc1) as (n2 & st' & l' & Hp2 & Hc' & Hsame & Hq' & Hlen' & Hw' & Hnew').
    exists (n1 `max` n2)%nat, st'.
    assert (∃ l'', chain (OrderBook.heap st') (OrderBook.head st') l'' ∧
                   quiescent (OrderBook.heap st') l'') as (l'' & Hc'' & Hq'').
    { destruct rest as [|d' rest'].
      - rewrite (Hsame eq_refl). eauto.
      - exists l'. split; [done|]. by apply Hq'. }
    exists l''. split_and!; try done.
    + intros fuel Hle. simpl. rewrite Hp1 by lia. simpl. apply Hp2. lia.
    + rewrite Hlen', Hlen1. simpl. lia.
    + intros a o Ha. destruct (Hw1 a o Ha) as (oa & Hoa & Hwa).
      destruct (Hw' a oa Hoa) as (o' & Ho' & Hwo').
      exists o'. split; [done|]. by eapply worn_trans.
    + intros [|k] d' Hk; simpl in Hk.
      * injection Hk as <-. rewrite Nat.add_0_r.
        destruct (Hw' _ o1 Ho1) as (o' & Ho' & Hwo').
        exists o'. split; [done|]. by eapply worn_trans.
      * destruct (Hnew' k d' Hk) as (o' & Ho' & Hwo'). exists o'. split; [|done].
        rewrite <- Ho'. f_equal. lia.
Qed.

(** X13.  A dataset worker that runs alone on a finite book ends: with
    enough fuel it empties its queue and prints its last line.  The book it
    leaves is a finite chain and, if the queue was not empty, uncrossed.
    The store has grown by one order for each queue entry, in queue order;
    the order created for an entry has the entry's type, ticker and price
    and a quantity between 0 and [max(1, quantity)]; the orders that were
    there before kept type, ticker and price and did not grow. *)
Theorem dataset_worker_drains_queue st thread_id queue l :
  chain (OrderBook.heap st) (OrderBook.head st) l →
  ∃ n st' l',
    (∀ fuel, (n ≤ fuel)%nat →
       DatasetWorker.process_dataset_orders fuel st queue thread_id
       = Some (st', [], [DatasetWorker.ThreadDone thread_id])) ∧
    chain (OrderBook.heap st') (OrderBook.head st') l' ∧
    (queue ≠ [] → quiescent (OrderBook.heap st') l') ∧
    length (OrderBook.heap st') = (length (OrderBook.heap st) + length queue)%nat ∧
    (∀ a o, OrderBook.heap st !! a = Some o →
       ∃ o', OrderBook.heap st' !! a = Some o' ∧
             Order.type o' = Order.type o ∧ Order.ticker o' = Order.ticker o ∧
             Order.price o' = Order.price o ∧ Order.quantity o' <= Order.quantity o) ∧
    (∀ k d, queue !! k = Some d →
       ∃ o', OrderBook.heap st' !! (length (OrderBook.heap st) + k)%nat = Some o' ∧
             Order.type o' = DatasetWorker.order_type d ∧
             Order.ticker o' = DatasetWorker.ticker d ∧
             Order.price o' = DatasetWorker.price d ∧
             0 <= Order.quantity o' <= Z.max 1 (DatasetWorker.quantity d)).
Proof.
  intros Hc.
  destruct (dataset_worker_spec thread_id queue st l Hc)
    as (n & st' & l' & Hp & Hc' & _ & Hq & Hlen & Hw & Hnew).
  exists n, st', l'. split_and!; try done.
  - intros a o Ha. destruct (Hw a o Ha) as (o' & Ho' & ? & ? & ? & ? & _).
    exists o'. by split_and!.
  - intros k d Hk. destruct (Hnew k d Hk) as (o' & Ho' & ? & ? & ? & Hle & Hpos & _).
    exists o'. simpl in *. split_and!; try done; lia.
Qed.

Lemma dataset_worker_drains_queue_witness :
  ∃ n st' l',
    (∀ fuel, (n ≤ fuel)%nat →
       DatasetWorker.process_dataset_orders fuel Scenario.end_to_end_book
         [DatasetWorker.mk "BUY" 1 0 100] 0
       = Some (st', [], [DatasetWorker.ThreadDone 0])) ∧
    chain (OrderBook.heap st') (OrderBook.head st') l' ∧
    ([DatasetWorker.mk "BUY" 1 0 100] ≠ [] → quiescent (OrderBook.heap st') l') ∧
    length (OrderBook.heap st')
    = (length (OrderBook.heap Scenario.end_to_end_book)
       + length [DatasetWorker.mk "BUY" 1 0 100])%nat ∧
    (∀ a o, OrderBook.heap Scenario.end_to_end_book !! a = Some o →
       ∃ o', OrderBook.heap st' !! a = Some o' ∧
             Order.type o' = Order.type o ∧ Order.ticker o' = Order.ticker o ∧
             Order.price o' = Order.price o ∧ Order.quantity o' <= Order.quantity o) ∧
    (∀ k d, [DatasetWorker.mk "BUY" 1 0 100] !! k = Some d →
       ∃ o', OrderBook.heap st'
               !! (length (OrderBook.heap Scenario.end_to_end_book) + k)%nat = Some o' ∧
             Order.type o' = DatasetWorker.order_type d ∧
             Order.ticker o' = DatasetWorker.ticker d ∧
             Order.price o' = DatasetWorker.price d ∧
             0 <= Order.quantity o' <= Z.max 1 (DatasetWorker.quantity d)).
Proof.
  apply (dataset_worker_drains_queue Scenario.end_to_end_book 0
           [DatasetWorker.mk "BUY" 1 0 100] [1; 0]%nat).
  chain_by_computation.
Defined.

(** The three-entry run behind [Swept.dataset_book]: the entry of quantity 0
    is traded as quantity 1. *)
Example dataset_worker_run :
  DatasetWorker.process_dataset_orders 9 OrderBook.init
    [DatasetWorker.mk "SELL" 1 50 100; DatasetWorker.mk "BUY" 1 30 105;
     DatasetWorker.mk "BUY" 1 0 100] 0
  = Some (Swept.dataset_book, [], [DatasetWorker.ThreadDone 0]) ∧
  OrderBook.out Swept.dataset_book =
    [OrderAdded ("SELL", 1, 50, 100); OrderAdded ("BUY", 1, 30, 105);
     MatchFound 0 ("SELL", 1, 50, 100) 30 100; OrderAdded ("BUY", 1, 1, 100);
     MatchFound 0 ("SELL", 1, 20, 100) 1 100].
Proof. split; reflexivity. Qed.

(** X14.  Placing an order that crosses no linked order of positive quantity
    on an uncrossed finite book only inserts it: with enough fuel the
    worker's turn returns the book in which the new order is the head in
    front of the old chain, the insertion is the only line printed, and no
    other object has changed. *)
Theorem placing_uncrossable_order_only_inserts st thread_id order_type ticker quantity
    price l :
  chain (OrderBook.heap st) (OrderBook.head st) l →
  quiescent (OrderBook.heap st) l →
  (∀ b ob, b ∈ l → OrderBook.heap st !! b = Some ob → 0 < Order.quantity ob →
           ¬ crossing (Order.init order_type ticker quantity price) ob) →
  ∃ n st',
    (∀ fuel, (n ≤ fuel)%nat →
       TradingEngine.place fuel st thread_id order_type ticker quantity price
       = Some st') ∧
    OrderBook.head st' = Some (length (OrderBook.heap st)) ∧
    OrderBook.heap st' =
      OrderBook.heap st
        ++ [Order.set_next (OrderBook.head st)
              (Order.init order_type ticker quantity price)] ∧
    OrderBook.out st' =
      OrderBook.out st
        ++ [OrderAdded (Order.str (Order.init order_type ticker quantity price))] ∧
    chain (OrderBook.heap st') (OrderBook.head st') (length (OrderBook.heap st) :: l).
Proof.
  intros Hc Hq Hnew.
  destruct (submit_spec st order_type ticker quantity price l Hc)
    as (st1 & Hsub & Hhd & Hheap & Hout & Hc1).
  set (a := length (OrderBook.heap st)) in *.
  set (new := Order.set_next (OrderBook.head st)
                (Order.init order_type ticker quantity price)) in *.
  assert (∀ x, x ∈ l → OrderBook.heap st1 !! x = OrderBook.heap st !! x) as Hold.
  { intros x Hx. destruct (chain_lookup _ _ _ _ Hc Hx) as [ox Hox].
    rewrite Hheap, lookup_app_l; [done|]. by apply lookup_lt_Some in Hox. }
  assert (OrderBook.heap st1 !! a = Some new) as Ha.
  { rewrite Hheap, lookup_app_r by done. by rewrite Nat.sub_diag. }
  assert (quiescent (OrderBook.heap st1) (a :: l)) as Hq1.
  { intros x y ox oy Hx Hy Hox Hoy Hqx Hqy Hcross.
    apply elem_of_cons in Hx as [->|Hx]; apply elem_of_cons in Hy as [->|Hy].
    - rewrite Ha in Hox, Hoy. injection Hox as <-. injection Hoy as <-.
      by eapply crossing_neq.
    - rewrite Ha in Hox. injection Hox as <-. rewrite (Hold y Hy) in Hoy.
      apply (Hnew y oy Hy Hoy Hqy).
      eapply crossing_fields; [..|exact Hcross]; done.
    - rewrite Ha in Hoy. injection Hoy as <-. rewrite (Hold x Hx) in Hox.
      apply (Hnew x ox Hx Hox Hqx). apply crossing_sym.
      eapply crossing_fields; [..|exact Hcross]; done.
    - rewrite (Hold x Hx) in Hox. rewrite (Hold y Hy) in Hoy.
      by eapply (Hq x y ox oy). }
  set (n := (open_interest (OrderBook.heap st1) * (length (a :: l) + 2)
             + length (a :: l) + length (a :: l) + 2)%nat).
  destruct (process_orders_from_total thread_id n st1 (OrderBook.head st1) (a :: l) []
              (a :: l) Hc1 eq_refl Hc1 ltac:(done)) as (st' & l'' & Hp & _ & _ & Hsame).
  rewrite (Hsame Hq1) in Hp.
  exists n, st1. split_and!; try done.
  intros fuel Hle. unfold TradingEngine.place. rewrite Hsub. cbn.
  by eapply process_orders_from_mono.
Qed.

Lemma placing_uncrossable_order_only_inserts_witness :
  ∃ n st',
    (∀ fuel, (n ≤ fuel)%nat →
       TradingEngine.place fuel Swept.fill_chain_book 0 "BUY" 1 3 99 = Some st') ∧
    OrderBook.head st' = Some (length (OrderBook.heap Swept.fill_chain_book)) ∧
    OrderBook.heap st' =
      OrderBook.heap Swept.fill_chain_book
        ++ [Order.set_next (OrderBook.head Swept.fill_chain_book)
              (Order.init "BUY" 1 3 99)] ∧
    OrderBook.out st' =
      OrderBook.out Swept.fill_chain_book
        ++ [OrderAdded (Order.str (Order.init "BUY" 1 3 99))] ∧
    chain (OrderBook.heap st') (OrderBook.head st')
      (length (OrderBook.heap Swept.fill_chain_book) :: [2; 0]%nat).
Proof.
  apply (placing_uncrossable_order_only_inserts Swept.fill_chain_book 0 "BUY" 1 3 99
           [2; 0]%nat).
  - chain_by_computation.
  - intros a b oa ob Ha Hb Hoa Hob Hqa Hqb [_ Hx].
    apply elem_of_cons in Ha as [->|Ha];
      [|apply list_elem_of_singleton in Ha as ->];
      apply elem_of_cons in Hb as [->|Hb];
      try (apply list_elem_of_singleton in Hb as ->);
      vm_compute in Hoa, Hob; injection Hoa as <-; injection Hob as <-;
      simpl in *; try lia;
      destruct Hx as [(? & ? & ?)|(? & ? & ?)]; discriminate.
  - intros b ob Hb Hob Hqb [_ Hx].
    apply elem_of_cons in Hb as [->|Hb];
      [|apply list_elem_of_singleton in Hb as ->];
      vm_compute in Hob; injection Hob as <-; simpl in *; try lia;
      destruct Hx as [(? & ? & ?)|(? & ? & ?)]; try discriminate; lia.
Defined.

(** ** Best execution *)

(** X15.  A trade of [match_order] on a finite book is made at the best
    price the book offers to the incoming order: the printed price is the
    candidate's, and no linked order of positive quantity that crosses the
    incoming order is cheaper (incoming BUY) or dearer (incoming SELL). *)
Theorem match_order_trades_at_best_price fuel st i thread_id l inc st' :
  chain (OrderBook.heap st) (OrderBook.head st) l →
  OrderBook.heap st !! i = Some inc →
  OrderBook.match_order fuel st i thread_id = Some (true, st') →
  ∃ b bo traded,
    b ∈ l ∧ OrderBook.heap st !! b = Some bo ∧
    OrderBook.out st' =
      OrderBook.out st ++ [MatchFound thread_id (Order.str bo) traded (Order.price bo)] ∧
    ∀ a o, a ∈ l → OrderBook.heap st !! a = Some o → 0 < Order.quantity o →
           crossing inc o →
           (Order.type inc = OrderType.BUY → Order.price bo <= Order.price o) ∧
           (Order.type inc = OrderType.SELL → Order.price bo >= Order.price o).
Proof.
  intros Hc Hinc Hm.
  destruct (match_order_outcome_ret _ _ _ _ _ _ _ _ Hc Hinc Hm)
    as (prev & best & bp & _ & Hinv & Hres).
  destruct best as [b|]; [|by destruct Hres].
  destruct Hres as (bo & Hb & Hres).
  destruct (decide _) as [Hz|Hz]; [by destruct Hres|].
  destruct Hres as (_ & l' & Hout & _).
  destruct Hinv as [_ (pre & post & bo' & Hl & Hb' & _ & Hx & _ & Hpre & Hpost)].
  rewrite Hb in Hb'. injection Hb' as <-.
  exists b, bo, (Z.min (Order.quantity inc) (Order.quantity bo)).
  split_and!; try done.
  { rewrite Hl. apply elem_of_app. right. left. }
  intros a o Ha Ho Hq Hxo. pose proof BUY_neq_SELL.
  assert (as_good inc bo o) as [[Ht Hle]|[Ht Hle]].
  { rewrite Hl in Ha. apply elem_of_app in Ha as [Ha|Ha].
    - destruct (Hpre a o Ha Ho Hq Hxo) as [[? ?]|[? ?]]; [left|right];
        split; try done; lia.
    - apply elem_of_cons in Ha as [->|Ha].
      + rewrite Hb in Ho. injection Ho as <-.
        destruct (crossing_sides _ _ Hx); [left|right]; split; try done; lia.
      + by eapply Hpost. }
  - split; [done|congruence].
  - split; [congruence|done].
Qed.

Lemma match_order_trades_at_best_price_witness :
  ∃ b bo traded,
    b ∈ [2; 1; 0]%nat ∧ OrderBook.heap Scenario.tie_book !! b = Some bo ∧
    OrderBook.out Scenario.tie_book_matched =
      OrderBook.out Scenario.tie_book
        ++ [MatchFound 0 (Order.str bo) traded (Order.price bo)] ∧
    ∀ a o, a ∈ [2; 1; 0]%nat → OrderBook.heap Scenario.tie_book !! a = Some o →
           0 < Order.quantity o →
           crossing (Order.mk "BUY" 1 5 10 (Some 1%nat)) o →
           (Order.type (Order.mk "BUY" 1 5 10 (Some 1%nat)) = OrderType.BUY →
            Order.price bo <= Order.price o) ∧
           (Order.type (Order.mk "BUY" 1 5 10 (Some 1%nat)) = OrderType.SELL →
            Order.price bo >= Order.price o).
Proof.
  apply (match_order_trades_at_best_price 4 Scenario.tie_book 2%nat 0 [2; 1; 0]%nat
           (Order.mk "BUY" 1 5 10 (Some 1%nat)) Scenario.tie_book_matched).
  - chain_by_computation.
  - reflexivity.
  - reflexivity.
Defined.

(** ** The snapshot *)

(** X16.  Whatever [get_order_list] returns is the chain from the head: it
    lists no order twice, every listed order exists in the store, and any
    larger fuel returns the same list. *)
Theorem get_order_list_lists_each_order_once fuel st l :
  OrderBook.get_order_list fuel st = Some l →
  chain (OrderBook.heap st) (OrderBook.head st) l ∧
  NoDup l ∧
  (∀ a, a ∈ l → is_Some (OrderBook.heap st !! a)) ∧
  (length l < fuel)%nat ∧
  ∀ fuel', (length l < fuel')%nat → OrderBook.get_order_list fuel' st = Some l.
Proof.
  intros Hg. pose proof (get_order_list_from_sound _ _ _ _ Hg) as Hc.
  split_and!; try done.
  - by eapply chain_NoDup.
  - intros a Ha. by eapply chain_lookup.
  - revert Hg. unfold OrderBook.get_order_list.
    generalize (OrderBook.head st) as c. clear Hc. revert l.
    induction fuel as [|fuel IH]; intros l c; [done|]. simpl.
    destruct c as [c|]; [|intros [= <-]; simpl; lia].
    destruct (OrderBook.heap st !! c) as [o|]; [|done]. simpl.
    destruct (OrderBook.get_order_list_from fuel _ _) as [rest|] eqn:Hr; [|done].
    simpl. intros [= <-]. simpl. specialize (IH _ _ Hr). lia.
  - intros fuel' Hf. by apply get_order_list_from_chain.
Qed.

Lemma get_order_list_lists_each_order_once_witness :
  chain (OrderBook.heap Swept.dataset_book) (OrderBook.head Swept.dataset_book)
    [2; 1; 0]%nat ∧
  NoDup [2; 1; 0]%nat ∧
  (∀ a, a ∈ [2; 1; 0]%nat → is_Some (OrderBook.heap Swept.dataset_book !! a)) ∧
  (length [2; 1; 0]%nat < 4)%nat ∧
  ∀ fuel', (length [2; 1; 0]%nat < fuel')%nat →
           OrderBook.get_order_list fuel' Swept.dataset_book = Some [2; 1; 0]%nat.
Proof.
  apply (get_order_list_lists_each_order_once 4 Swept.dataset_book [2; 1; 0]%nat).
  reflexivity.
Defined.

(** ** The text of a row *)

Lemma append_assoc (s1 s2 s3 : string) : (s1 +:+ s2) +:+ s3 = s1 +:+ (s2 +:+ s3).
Proof.
  induction s1 as [|c s1 IH]; [done|].
  change (String c ((s1 +:+ s2) +:+ s3) = String c (s1 +:+ s2 +:+ s3)).
  by rewrite IH.
Qed.

Lemma char_length_append (s1 s2 : string) :
  Format.char_length (s1 +:+ s2)
  = (Format.char_length s1 + Format.char_length s2)%nat.
Proof.
  induction s1 as [|c s1 IH]; [done|].
  change (Format.char_length (String c s1 +:+ s2))
    with ((if Format.starts_char c then 1 else 0)
          + Format.char_length (s1 +:+ s2))%nat.
  rewrite IH. simpl. lia.
Qed.

Lemma char_length_times_ascii c n :
  Format.starts_char c = true → Format.char_length (Format.times c n) = n.
Proof. intros Hc. induction n as [|n IH]; simpl; [done|]. by rewrite Hc, IH. Qed.

Lemma char_length_ljust width s :
  Format.char_length (Format.ljust width s)
  = (width `max` Format.char_length s)%nat.
Proof.
  unfold Format.ljust. rewrite char_length_append, char_length_times_ascii by done.
  lia.
Qed.

Lemma starts_char_digit d : Format.starts_char (pretty_N_char d) = true.
Proof. unfold pretty_N_char. by repeat case_match. Qed.

(** A number below [10^k] is written with at most [k] characters. *)
Lemma pretty_N_go_char_length k :
  ∀ x s, (x < 10 ^ N.of_nat k)%N →
         (Format.char_length (pretty_N_go x s) ≤ Format.char_length s + k)%nat.
Proof.
  induction k as [|k IH]; intros x s Hx.
  - assert (x = 0%N) as -> by (simpl in Hx; lia). rewrite pretty_N_go_0. lia.
  - destruct (decide (x = 0%N)) as [->|Hne]; [rewrite pretty_N_go_0; lia|].
    rewrite pretty_N_go_step by lia.
    etrans; [apply IH|simpl; rewrite starts_char_digit; lia].
    rewrite Nat2N.inj_succ, N.pow_succ_r' in Hx.
    apply N.Div0.div_lt_upper_bound. lia.
Qed.

Lemma pretty_Z_char_length (z : Z) k :
  (0 < k)%nat → 0 <= z < 10 ^ Z.of_nat k →
  (Format.char_length (pretty z) ≤ k)%nat.
Proof.
  intros Hk [Hz0 Hz]. destruct z as [|q|q]; [simpl; lia| |lia].
  change (pretty (Z.pos q)) with (pretty (N.pos q)).
  unfold pretty, pretty_N. rewrite decide_False by done.
  etrans; [apply (pretty_N_go_char_length k)|simpl; lia].
  apply N2Z.inj_lt. rewrite N2Z.inj_pow, nat_N_Z. simpl. lia.
Qed.

(** X17.  The text of a row is, for every order, the type, the ticker, the
    quantity and the price written out in full, each followed by the spaces
    that bring it to 6, 6, 8 and 6 characters if it is shorter, with
    [" | "] in between.  No field is ever cut: the row has 35 characters,
    the width of the table header and of its rule, plus the excess of each
    field over its column.  Whenever the type has at most 6 characters,
    ticker and price lie in [0, 10^6) and the quantity in [0, 10^8), there
    is no excess: the four columns have their widths and the row has 35
    characters. *)
Theorem order_row_lines_up_with_header type ticker quantity price :
  Format.str (type, ticker, quantity, price)
  = type +:+ Format.times " " (6 - Format.char_length type) +:+ " | "
    +:+ pretty ticker +:+ Format.times " " (6 - Format.char_length (pretty ticker))
    +:+ " | "
    +:+ pretty quantity +:+ Format.times " " (8 - Format.char_length (pretty quantity))
    +:+ " | "
    +:+ pretty price +:+ Format.times " " (6 - Format.char_length (pretty price)) ∧
  Format.char_length (Format.str (type, ticker, quantity, price))
  = (35 + (Format.char_length type - 6) + (Format.char_length (pretty ticker) - 6)
     + (Format.char_length (pretty quantity) - 8)
     + (Format.char_length (pretty price) - 6))%nat ∧
  Format.char_length Format.table_header = 35%nat ∧
  Format.char_length Format.table_line = 35%nat ∧
  ((Format.char_length type ≤ 6)%nat →
   0 <= ticker < 1000000 → 0 <= quantity < 100000000 → 0 <= price < 1000000 →
   Format.char_length (Format.str (type, ticker, quantity, price)) = 35%nat ∧
   Format.char_length (Format.ljust 6 type) = 6%nat ∧
   Format.char_length (Format.ljust 6 (pretty ticker)) = 6%nat ∧
   Format.char_length (Format.ljust 8 (pretty quantity)) = 8%nat ∧
   Format.char_length (Format.ljust 6 (pretty price)) = 6%nat).
Proof.
  assert (Format.char_length (Format.str (type, ticker, quantity, price))
          = (35 + (Format.char_length type - 6)
             + (Format.char_length (pretty ticker) - 6)
             + (Format.char_length (pretty quantity) - 8)
             + (Format.char_length (pretty price) - 6))%nat) as Hlen.
  { unfold Format.str. rewrite !char_length_append, !char_length_ljust. simpl. lia. }
  split_and!; [|done|done|done|].
  - unfold Format.str, Format.ljust. by rewrite !append_assoc.
  - intros Hty Htk Hq Hp.
    pose proof (pretty_Z_char_length ticker 6 ltac:(lia) Htk).
    pose proof (pretty_Z_char_length quantity 8 ltac:(lia) Hq).
    pose proof (pretty_Z_char_length price 6 ltac:(lia) Hp).
    rewrite !char_length_ljust. split_and!; lia.
Qed.

Lemma order_row_lines_up_with_header_witness :
  Format.str ("SELL", 1, 20, 100)
  = "SELL" +:+ Format.times " " (6 - Format.char_length "SELL") +:+ " | "
    +:+ pretty 1 +:+ Format.times " " (6 - Format.char_length (pretty 1)) +:+ " | "
    +:+ pretty 20 +:+ Format.times " " (8 - Format.char_length (pretty 20)) +:+ " | "
    +:+ pretty 100 +:+ Format.times " " (6 - Format.char_length (pretty 100)) ∧
  Format.char_length (Format.str ("SELL", 1, 20, 100))
  = (35 + (Format.char_length "SELL" - 6) + (Format.char_length (pretty 1) - 6)
     + (Format.char_length (pretty 20) - 8)
     + (Format.char_length (pretty 100) - 6))%nat ∧
  Format.char_length (Format.str ("SELL", 1, 20, 100)) = 35%nat ∧
  Format.char_length (Format.ljust 6 "SELL") = 6%nat ∧
  Format.char_length (Format.ljust 6 (pretty 1)) = 6%nat ∧
  Format.char_length (Format.ljust 8 (pretty 20)) = 8%nat ∧
  Format.char_length (Format.ljust 6 (pretty 100)) = 6%nat.
Proof.
  destruct (order_row_lines_up_with_header "SELL" 1 20 100)
    as (Htext & Hlen & _ & _ & Hfit).
  split; [exact Htext|]. split; [exact Hlen|].
  apply Hfit; simpl; lia.
Defined.

(** Rows and the header as text: a quantity of nine digits widens its
    column by one, and a type of one two-byte character is followed by five
    spaces. *)
Example order_row_text :
  Format.str ("SELL", 1, 20, 100) = "SELL   | 1      | 20       | 100   " ∧
  Format.table_header = "Type   | Ticker | Qty      | Price " ∧
  Format.table_line = "-----------------------------------" ∧
  Format.str ("BUY", 7, 123456789, -5) = "BUY    | 7      | 123456789 | -5    " ∧
  Format.char_length (Format.str ("BUY", 7, 123456789, -5)) = 36%nat ∧
  Format.str ("é", 1, 2, 3) = "é      | 1      | 2        | 3     " ∧
  Format.char_length (Format.str ("é", 1, 2, 3)) = 35%nat.
Proof. split_and!; reflexivity. Qed.
